(** * Mitchell-Schaeffer model equations: [mitchell_schaeffer/ops.py]

    A shallow embedding of the six public functions of [ops.py] and the
    properties of its specification.

    Python's [float] is IEEE-754 binary64; it is modelled by Rocq's primitive
    [float], whose operations are specified bit for bit by [SpecFloat]
    (round to nearest, ties to even).  Python's arithmetic differs from the
    bare IEEE operations in two places that matter here: [/] raises
    [ZeroDivisionError] on a zero divisor instead of returning an infinity or
    a NaN, and [**] filters the special cases itself before it hands the
    operands to the platform's [pow], whose range errors it turns into
    [OverflowError].  Both are modelled; the platform's [pow] is a parameter.
    Arguments are floats, as the docstrings of [ops.py] say ([u : float],
    [h : float], ...); the literals [1] and [2] of [1-u] and [u**2] are
    converted to [1.0] and [2.0] by Python before the float operation.

    The two accessors build a new [dict] object at every call; these objects
    live in an explicit heap so that aliasing can be stated. *)

From Stdlib Require Import ZArith Bool Lia Floats.
From stdpp Require Import gmap strings.

#[local] Set Warnings "-inexact-float".

(** ** Python outcomes: a value, or a raised exception *)

Module Py.

(** The exceptions float arithmetic can raise. *)
Inductive exception : Set :=
| ZeroDivisionError
| OverflowError
| ValueError.

Inductive outcome (A : Type) : Type :=
| Return (a : A)
| Raise (e : exception).
Arguments Return {A} a.
Arguments Raise {A} e.

Definition bind {A B : Type} (m : outcome A) (k : A -> outcome B) : outcome B :=
  match m with
  | Return a => k a
  | Raise e => Raise e
  end.

Definition raises {A : Type} (m : outcome A) : bool :=
  match m with
  | Return _ => false
  | Raise _ => true
  end.

End Py.
Import Py.

Notation "'let*' x ':=' m 'in' k" := (bind m (fun x => k))
  (at level 10, x name, m at level 100, k at level 200).

(** ** Python float operations *)

Section FloatOps.
#[local] Open Scope float_scope.

(** [a / b] on floats ([float_div] of CPython): a zero divisor of either
    sign raises; a NaN divisor does not compare equal to zero and is
    divided by. *)
Definition float_div (a b : float) : outcome float :=
  if b =? 0 then Raise ZeroDivisionError else Return (a / b).

(** [a == b] on two evaluated operands: the comparison is made only when
    both evaluations return. *)
Definition float_eq (a b : outcome float) : outcome bool :=
  let* x := a in let* y := b in Return (x =? y).

(** The platform's part of [iv ** 2]: CPython calls the C library's
    [pow (iv, 2.0)] for a finite [iv > 0] other than 1, and raises
    [OverflowError] (or [ValueError]) when [errno] is set or the result is
    an infinity.  What the library returns is platform-defined. *)
Variable libm_pow2 : float -> outcome float.

(** [iv ** 2] on a float ([float_pow] of CPython at exponent 2.0, its tests
    in their order): NaN is returned as it is, an infinity gives
    [fabs iv], a zero gives [0.0], a negative base is replaced by its
    absolute value (the exponent is an even integer), base 1 gives [1.0],
    and every other base goes to the platform. *)
Definition float_pow2 (iv : float) : outcome float :=
  if is_nan iv then Return iv
  else if is_infinity iv then Return (abs iv)
  else if iv =? 0 then Return 0
  else
    let iv := if iv <? 0 then - iv else iv in
    if iv =? 1 then Return 1 else libm_pow2 iv.

(** ** The model equations *)

(** [return J_in + J_out] *)
Definition calc_rhs (J_in J_out : float) : float := J_in + J_out.

(** [h = (1.0 - h) / tau_open if u < u_gate else -h / tau_close] *)
Definition calc_dh (h u tau_close tau_open u_gate : float) : outcome float :=
  if u <? u_gate then float_div (1 - h) tau_open
  else float_div (- h) tau_close.

(** [C = (u**2)*(1-u); return h*C/tau_in] *)
Definition calc_J_in (u h tau_in : float) : outcome float :=
  let* u2 := float_pow2 u in
  let C := u2 * (1 - u) in
  float_div (h * C) tau_in.

(** [return -u/tau_out] *)
Definition calc_J_out (u tau_out : float) : outcome float :=
  float_div (- u) tau_out.

(** The formula of the specification for the inward current,
    [h * u^2 * (1 - u) / tau_in], evaluated in the order the specification
    gives: first [C = u^2 * (1 - u)], then [h * C / tau_in]. *)
Definition J_in_formula (u h tau_in : float) : outcome float :=
  let* u2 := float_pow2 u in
  float_div (h * (u2 * (1 - u))) tau_in.

End FloatOps.

(** A sample platform, to instantiate [libm_pow2] at concrete inputs: the
    square is the rounded product, and a result that overflows is reported
    as a range error.  It is an idealisation: the [pow] of a C library may
    differ from the rounded product in the last bit, and nothing proved for
    every platform depends on it. *)
Definition pow2_rn (iv : float) : outcome float :=
  let ix := (iv * iv)%float in
  if is_infinity ix then Raise OverflowError else Return ix.

(** ** The heap of [dict] objects *)

Abbreviation dict := (gmap string float).
Abbreviation heap := (gmap positive dict).

(** A dict display evaluates to a new object, at an address no live object
    has. *)
Definition alloc (d : dict) (s : heap) : positive * heap :=
  let l := fresh (dom s) in (l, <[l := d]> s).

(** Any in-place change of the object at [l]: [d[k] = v], [del d[k]],
    [d.clear()], [d.update(...)]. *)
Definition mutate (l : positive) (f : dict -> dict) (s : heap) : heap :=
  alter f l s.

Definition setitem (l : positive) (k : string) (v : float) : heap -> heap :=
  mutate l (<[k := v]>).

Definition default_variables : dict :=
  {[ "u" := 0%float; "h" := 1%float ]}.

Definition default_parameters : dict :=
  {[ "tau_close" := 150%float; "tau_open" := 120%float; "tau_out" := 6%float;
     "tau_in" := 0.3%float; "u_gate" := 0.13%float ]}.

(** [return {"u": 0.0, "h": 1.0}] *)
Definition get_variables (s : heap) : positive * heap :=
  alloc default_variables s.

(** [return {"tau_close": 150.0, "tau_open": 120.0, "tau_out": 6.0,
    "tau_in": 0.3, "u_gate": 0.13}] *)
Definition get_parameters (s : heap) : positive * heap :=
  alloc default_parameters s.

(** ** Shapes of a binary64 value

    [signed s x]: [x] is a zero, a finite number or an infinity of sign [s]
    (so it is not NaN); [finite_signed s x] leaves the infinity out. *)

Definition signed (s : bool) (x : spec_float) : Prop :=
  match x with
  | S754_zero s' | S754_infinity s' | S754_finite s' _ _ => s' = s
  | S754_nan => False
  end.

Definition finite_signed (s : bool) (x : spec_float) : Prop :=
  match x with
  | S754_zero s' | S754_finite s' _ _ => s' = s
  | _ => False
  end.

Definition SFis_zero (x : spec_float) : Prop :=
  match x with
  | S754_zero _ => True
  | _ => False
  end.

Definition SFis_finite (x : spec_float) : Prop :=
  match x with
  | S754_zero _ | S754_finite _ _ _ => True
  | _ => False
  end.

(** [weak_signed s x]: [x] is a zero of either sign, or a finite number or
    an infinity of sign [s]; [weak_finite s x] leaves the infinity out;
    [SFpositive y]: [y > 0]. *)
Definition weak_signed (s : bool) (x : spec_float) : Prop :=
  match x with
  | S754_zero _ => True
  | S754_infinity s' | S754_finite s' _ _ => s' = s
  | S754_nan => False
  end.

Definition weak_finite (s : bool) (x : spec_float) : Prop :=
  match x with
  | S754_zero _ => True
  | S754_finite s' _ _ => s' = s
  | _ => False
  end.

Definition SFpositive (y : spec_float) : Prop :=
  match y with
  | S754_infinity false | S754_finite false _ _ => True
  | _ => False
  end.

(** [SFmagnitude_le B x]: [x] is a zero or a finite number below [2 ^ B]
    in magnitude. *)
Definition SFmagnitude_le (B : Z) (x : spec_float) : Prop :=
  match x with
  | S754_zero _ => True
  | S754_finite _ m e => (Z.pos (digits2_pos m) + e <= B)%Z
  | _ => False
  end.

(** [SFmagnitude_ge B x]: [x] is not a zero and is at least [2 ^ (B - 1)]
    in magnitude (a finite number, or an infinity). *)
Definition SFmagnitude_ge (B : Z) (x : spec_float) : Prop :=
  match x with
  | S754_finite _ m e => (B <= Z.pos (digits2_pos m) + e)%Z
  | S754_infinity _ => True
  | _ => False
  end.

(** [represents mrs N M]: the rounding record [mrs] stands for the exact
    value [N / M], in units of its exponent: its mantissa is the integer
    part, the round bit says whether the rest reaches one half, and the
    sticky bit whether the rest is neither zero nor one half. *)
Definition represents (mrs : shr_record) (N M : Z) : Prop :=
  (0 <= N - shr_m mrs * M < M)%Z /\
  shr_r mrs = (M <=? 2 * (N - shr_m mrs * M))%Z /\
  shr_s mrs = negb ((N - shr_m mrs * M =? 0)%Z
                    || (2 * (N - shr_m mrs * M) =? M)%Z).

(** [y] is the negation of [x]: the negated float when [x] is a number,
    and a NaN when [x] is a NaN (the sign and the payload of a NaN are not
    modelled, and Python's [-x] flips the sign bit of a NaN). *)
Definition negation_of (x y : float) : Prop :=
  if is_nan x then is_nan y = true else y = (- x)%float.

(** Negated outcomes: the same exception, or negated floats. *)
Definition negated_outcome (a b : outcome float) : Prop :=
  match a, b with
  | Return x, Return y => negation_of x y
  | Raise e, Raise e' => e = e'
  | _, _ => False
  end.

(** Two binary64 values that no Python program tells apart by [==]: the
    same value, or two zeros. *)
Definition SFsame (x y : spec_float) : Prop :=
  x = y \/ (SFis_zero x /\ SFis_zero y).

(** Equal floats: identical, or equal under Python's [==] (which identifies
    [0.0] and [-0.0] and never holds of a NaN). *)
Definition same_float (x y : float) : Prop :=
  x = y \/ (x =? y)%float = true.

(** Equal outcomes: the same exception, or equal floats. *)
Definition same_outcome (a b : outcome float) : Prop :=
  match a, b with
  | Return x, Return y => same_float x y
  | Raise e, Raise e' => e = e'
  | _, _ => False
  end.

(** What a Python caller observes of two returned floats: they compare
    equal under [==], or both are NaN (and [==] is [False]). *)
Definition eq_or_nan (x y : float) : Prop :=
  (x =? y)%float = true \/ (is_nan x = true /\ is_nan y = true).

(** Outcomes that agree: the same exception, or floats that are [==] or
    both NaN. *)
Definition agree (a b : outcome float) : Prop :=
  match a, b with
  | Return x, Return y => eq_or_nan x y
  | Raise e, Raise e' => e = e'
  | _, _ => False
  end.

(** The mantissa and the value of [1.0]. *)
Definition one_mantissa : positive := 4503599627370496.
Definition SFone : spec_float := S754_finite false one_mantissa (-52).

(** * Properties of the binary64 specification *)

Section SpecCompare.

Lemma SFcompare_antisym (x y : spec_float) (c : comparison) :
  SFcompare x y = Some c -> SFcompare y x = Some (CompOpp c).
Proof.
  destruct x as [sx|sx| |sx mx ex], y as [sy|sy| |sy my ey]; simpl;
    try discriminate;
    try (intros [= <-];
         repeat match goal with b : bool |- _ => destruct b end; reflexivity).
  intros [= <-]. f_equal.
  assert (Hm : Pos.compare_cont Eq my mx = CompOpp (Pos.compare_cont Eq mx my))
    by (symmetry; apply (Pos.compare_cont_antisym mx my Eq)).
  rewrite (Z.compare_antisym ex ey), Hm.
  destruct sx, sy; simpl; try reflexivity;
    destruct (ex ?= ey)%Z; simpl; try reflexivity;
    destruct (Pos.compare_cont Eq mx my); reflexivity.
Qed.

Lemma SFcompare_refl (x : spec_float) :
  x <> S754_nan -> SFcompare x x = Some Eq.
Proof.
  destruct x as [s|s| |s m e]; simpl; try congruence.
  - destruct s; reflexivity.
  - intros _. rewrite Z.compare_refl.
    change (Pos.compare_cont Eq m m) with (Pos.compare m m).
    rewrite Pos.compare_refl. destruct s; reflexivity.
Qed.

Lemma SFcompare_total (x y : spec_float) :
  x <> S754_nan -> y <> S754_nan -> exists c, SFcompare x y = Some c.
Proof.
  destruct x, y; simpl; try congruence; eauto.
Qed.

(** Two values that compare equal are both zeros or are the same value. *)
Lemma SFeqb_inv (x y : spec_float) :
  SFeqb x y = true -> (SFis_zero x /\ SFis_zero y) \/ (x = y /\ x <> S754_nan).
Proof.
  unfold SFeqb.
  destruct x as [sx|sx| |sx mx ex], y as [sy|sy| |sy my ey]; simpl;
    try discriminate; try (left; split; exact I);
    try (destruct sx, sy; try discriminate; intros _; right; split; congruence).
  destruct (Z.compare_spec ex ey) as [->|He|He];
    [|destruct sx, sy; discriminate..].
  change (Pos.compare_cont Eq mx my) with (Pos.compare mx my).
  destruct (Pos.compare_spec mx my) as [->|Hm|Hm];
    destruct sx, sy; try discriminate; intros _; right; split; congruence.
Qed.

Lemma SFleb_finite_pos (m m1 : positive) (e e1 : Z) :
  SFleb (S754_finite false m e) (S754_finite false m1 e1) = true ->
  (e < e1 \/ (e = e1 /\ Z.pos m <= Z.pos m1))%Z.
Proof.
  unfold SFleb, SFcompare.
  destruct (Z.compare_spec e e1) as [->|He|He]; intros H.
  - right. split; [reflexivity|].
    change (Pos.compare_cont Eq m m1) with (Pos.compare m m1) in H.
    apply Pos2Z.pos_le_pos, Pos.compare_le_iff.
    intros E. rewrite E in H. discriminate H.
  - now left.
  - discriminate H.
Qed.

Lemma SFltb_finite_pos (m m1 : positive) (e e1 : Z) :
  SFltb (S754_finite false m e) (S754_finite false m1 e1) = true ->
  (e < e1 \/ (e = e1 /\ Z.pos m < Z.pos m1))%Z.
Proof.
  unfold SFltb, SFcompare.
  destruct (Z.compare_spec e e1) as [->|He|He]; intros H.
  - right. split; [reflexivity|].
    change (Pos.compare_cont Eq m m1) with (Pos.compare m m1) in H.
    apply Pos2Z.pos_lt_pos. unfold Pos.lt.
    revert H. destruct (Pos.compare m m1); intros H; congruence.
  - now left.
  - discriminate H.
Qed.

End SpecCompare.

(** ** Bit lengths of mantissas *)

Section Digits.
#[local] Open Scope Z_scope.

Lemma digits2_pos_size (p : positive) : digits2_pos p = Pos.size p.
Proof. induction p; simpl; congruence. Qed.

Lemma digits2_pos_gt (p : positive) : Z.pos p < 2 ^ Z.pos (digits2_pos p).
Proof.
  rewrite digits2_pos_size, <- Pos2Z.inj_pow.
  apply Pos2Z.pos_lt_pos, Pos.size_gt.
Qed.

Lemma digits2_pos_le (p : positive) (k : Z) :
  0 <= k -> Z.pos p <= 2 ^ k -> Z.pos (digits2_pos p) <= k + 1.
Proof.
  intros Hk Hp.
  pose proof (Pos.size_le p) as H. apply Pos2Z.pos_le_pos in H.
  rewrite Pos2Z.inj_pow in H. rewrite digits2_pos_size.
  pose proof (Pos2Z.inj_xO p) as H0.
  assert (H2 : 2 ^ Z.pos (Pos.size p) <= 2 ^ (k + 1))
    by (rewrite Z.pow_add_r by lia; lia).
  apply Z.pow_le_mono_r_iff in H2; lia.
Qed.

Lemma digits2_pos_succ (p : positive) :
  Z.pos (digits2_pos (Pos.succ p)) <= Z.pos (digits2_pos p) + 1.
Proof. induction p as [p IH|p IH|]; simpl; lia. Qed.

Lemma Zdigits2_nonneg (m : Z) : 0 <= Zdigits2 m.
Proof. destruct m; simpl; lia. Qed.

Lemma Zdigits2_succ (m : Z) : 0 <= m -> Zdigits2 (m + 1) <= Zdigits2 m + 1.
Proof.
  destruct m as [|p|p]; simpl; try lia.
  intros _. rewrite Pos.add_1_r. apply digits2_pos_succ.
Qed.

Lemma Zdigits2_le (d k : Z) :
  0 <= d -> 0 <= k -> d <= 2 ^ k -> Zdigits2 d <= k + 1.
Proof.
  destruct d as [|p|p]; simpl; intros; try lia.
  now apply digits2_pos_le.
Qed.

Lemma iter_xO_value (m d : positive) :
  Z.pos (Pos.iter xO m d) = Z.pos m * 2 ^ Z.pos d.
Proof.
  induction d as [|d IH] using Pos.peano_ind.
  - simpl. lia.
  - rewrite Pos.iter_succ, Pos2Z.inj_xO, IH, Pos2Z.inj_succ, Z.pow_succ_r by lia.
    lia.
Qed.

Lemma iter_xO_digits (m d : positive) :
  Z.pos (digits2_pos (Pos.iter xO m d)) = Z.pos (digits2_pos m) + Z.pos d.
Proof.
  induction d as [|d IH] using Pos.peano_ind.
  - simpl. lia.
  - rewrite Pos.iter_succ. simpl. lia.
Qed.

(** One right shift of the rounding record halves the mantissa. *)
Lemma shr_1_nonneg (mrs : shr_record) :
  0 <= shr_m mrs -> 0 <= shr_m (shr_1 mrs).
Proof.
  destruct mrs as [m r s]. simpl.
  destruct m as [|[p|p|]|p]; simpl; lia.
Qed.

Lemma shr_1_digits (mrs : shr_record) :
  0 <= shr_m mrs ->
  Zdigits2 (shr_m (shr_1 mrs)) <= Z.max 0 (Zdigits2 (shr_m mrs) - 1).
Proof.
  destruct mrs as [m r s]. simpl.
  destruct m as [|[p|p|]|p]; simpl; lia.
Qed.

Lemma iter_shr_1_digits (p : positive) (mrs : shr_record) :
  0 <= shr_m mrs ->
  0 <= shr_m (SpecFloat.iter_pos shr_1 p mrs) /\
  Zdigits2 (shr_m (SpecFloat.iter_pos shr_1 p mrs))
    <= Z.max 0 (Zdigits2 (shr_m mrs) - Z.pos p).
Proof.
  revert mrs. induction p as [p IH|p IH|]; simpl; intros mrs H.
  - pose proof (shr_1_nonneg mrs H) as H0.
    pose proof (shr_1_digits mrs H) as D0.
    destruct (IH _ H0) as [H1 D1]. destruct (IH _ H1) as [H2 D2].
    split; [exact H2|lia].
  - destruct (IH _ H) as [H1 D1]. destruct (IH _ H1) as [H2 D2].
    split; [exact H2|lia].
  - split; [now apply shr_1_nonneg|now apply shr_1_digits].
Qed.

(** *** Lower bounds *)

Lemma digits2_pos_ge_pow (p : positive) :
  2 ^ (Z.pos (digits2_pos p) - 1) <= Z.pos p.
Proof.
  pose proof (Pos.size_le p) as H. apply Pos2Z.pos_le_pos in H.
  rewrite Pos2Z.inj_pow, <- digits2_pos_size in H.
  pose proof (Pos2Z.inj_xO p) as H0.
  replace (Z.pos (digits2_pos p)) with (Z.succ (Z.pos (digits2_pos p) - 1)) in H
    by lia.
  rewrite Z.pow_succ_r in H by lia. lia.
Qed.

Lemma Zdigits2_ge (q t : Z) : 0 <= t -> 2 ^ t <= q -> t + 1 <= Zdigits2 q.
Proof.
  intros Ht Hq. pose proof (Z.pow_pos_nonneg 2 t ltac:(lia) Ht) as Hp.
  destruct q as [|p|p]; try lia. simpl.
  pose proof (digits2_pos_gt p) as Hg.
  assert (H : 2 ^ t < 2 ^ Z.pos (digits2_pos p)) by lia.
  apply Z.pow_lt_mono_r_iff in H; lia.
Qed.

Lemma Zdigits2_lt (q k : Z) : 0 <= q -> 0 <= k -> q < 2 ^ k -> Zdigits2 q <= k.
Proof.
  intros Hq Hk H. destruct q as [|p|p]; simpl; try lia.
  pose proof (digits2_pos_ge_pow p) as Hg.
  assert (H2 : 2 ^ (Z.pos (digits2_pos p) - 1) < 2 ^ k) by lia.
  apply Z.pow_lt_mono_r_iff in H2; lia.
Qed.

Lemma digits2_pos_succ_ge (p : positive) :
  Z.pos (digits2_pos p) <= Z.pos (digits2_pos (Pos.succ p)).
Proof. induction p as [p IH|p IH|]; simpl; lia. Qed.

Lemma Zdigits2_succ_ge (m : Z) : 0 <= m -> Zdigits2 m <= Zdigits2 (m + 1).
Proof.
  destruct m as [|p|p]; simpl; try lia.
  intros _. rewrite Pos.add_1_r. apply digits2_pos_succ_ge.
Qed.

Lemma shr_1_digits_ge (mrs : shr_record) :
  0 <= shr_m mrs ->
  Zdigits2 (shr_m mrs) - 1 <= Zdigits2 (shr_m (shr_1 mrs)).
Proof.
  destruct mrs as [m r s]. simpl.
  destruct m as [|[p|p|]|p]; simpl; lia.
Qed.

Lemma iter_shr_1_digits_ge (p : positive) (mrs : shr_record) :
  0 <= shr_m mrs ->
  Zdigits2 (shr_m mrs) - Z.pos p
    <= Zdigits2 (shr_m (SpecFloat.iter_pos shr_1 p mrs)).
Proof.
  revert mrs. induction p as [p IH|p IH|]; simpl; intros mrs H.
  - pose proof (shr_1_nonneg mrs H) as H0.
    pose proof (shr_1_digits_ge mrs H) as D0.
    destruct (iter_shr_1_digits p _ H0) as [H1 _].
    pose proof (IH _ H0) as D1. pose proof (IH _ H1) as D2. lia.
  - destruct (iter_shr_1_digits p _ H) as [H1 _].
    pose proof (IH _ H) as D1. pose proof (IH _ H1) as D2. lia.
  - now apply shr_1_digits_ge.
Qed.

End Digits.

(** ** Rounding keeps the sign and, below the overflow threshold, the range *)

Section Rounding.
Variables prec emax : Z.
#[local] Open Scope Z_scope.

Lemma shr_record_of_loc_m (m : Z) (l : location) :
  shr_m (shr_record_of_loc m l) = m.
Proof. destruct l as [|[]]; reflexivity. Qed.

Lemma shr_fexp_bounds (m e : Z) (l : location) :
  0 <= m ->
  0 <= shr_m (fst (shr_fexp prec emax m e l)) /\
  snd (shr_fexp prec emax m e l) <= Z.max e (fexp prec emax (Zdigits2 m + e)) /\
  Zdigits2 (shr_m (fst (shr_fexp prec emax m e l))) + snd (shr_fexp prec emax m e l)
    <= Z.max (Zdigits2 m + e) (fexp prec emax (Zdigits2 m + e)).
Proof.
  intros Hm. unfold shr_fexp, shr.
  destruct (fexp prec emax (Zdigits2 m + e) - e) as [|p|p] eqn:En; simpl;
    rewrite ?shr_record_of_loc_m; try lia.
  destruct (iter_shr_1_digits p (shr_record_of_loc m l)) as [H1 H2].
  - now rewrite shr_record_of_loc_m.
  - rewrite shr_record_of_loc_m in H2. lia.
Qed.

Lemma round_nearest_even_bounds (m : Z) (l : location) :
  0 <= m ->
  0 <= round_nearest_even m l /\
  Zdigits2 (round_nearest_even m l) <= Zdigits2 m + 1.
Proof.
  intros H. pose proof (Zdigits2_succ m H).
  destruct l as [|[]]; simpl; try lia.
  destruct (Z.even m); lia.
Qed.

(** Rounding a non-negative mantissa never gives NaN and keeps the sign. *)
Lemma binary_round_aux_signed (s : bool) (m e : Z) (l : location) :
  0 <= m -> signed s (binary_round_aux prec emax s m e l).
Proof.
  intros Hm. unfold binary_round_aux.
  destruct (shr_fexp_bounds m e l Hm) as (H1 & _ & _).
  destruct (shr_fexp prec emax m e l) as [mrs' e']. simpl in H1.
  destruct (round_nearest_even_bounds _ (loc_of_shr_record mrs') H1) as [H2 _].
  destruct (shr_fexp_bounds _ e' loc_Exact H2) as (H3 & _ & _).
  destruct (shr_fexp prec emax _ e' loc_Exact) as [mrs'' e'']. simpl in H3.
  destruct (shr_m mrs'') as [|p|p]; simpl; try reflexivity; try lia.
  destruct (e'' <=? emax - prec); reflexivity.
Qed.

(** A value whose magnitude is below [2 ^ (emax - prec)] is not rounded to
    an infinity. *)
Lemma binary_round_aux_finite (s : bool) (m e : Z) (l : location) :
  0 < prec -> 2 <= emax ->
  0 <= m -> Zdigits2 m + e <= emax - prec ->
  finite_signed s (binary_round_aux prec emax s m e l).
Proof.
  intros Hprec Hemax Hm HD. unfold binary_round_aux.
  pose proof (Zdigits2_nonneg m) as Hd.
  destruct (shr_fexp_bounds m e l Hm) as (H1 & E1 & D1).
  destruct (shr_fexp prec emax m e l) as [mrs' e']. simpl in H1, E1, D1.
  destruct (round_nearest_even_bounds _ (loc_of_shr_record mrs') H1) as [H2 D2].
  destruct (shr_fexp_bounds _ e' loc_Exact H2) as (H3 & E3 & D3).
  destruct (shr_fexp prec emax _ e' loc_Exact) as [mrs'' e'']. simpl in H3, E3, D3.
  unfold fexp, SpecFloat.emin in *.
  destruct (shr_m mrs'') as [|p|p]; simpl; try reflexivity; try lia.
  destruct (Z.leb_spec e'' (emax - prec)); [reflexivity|lia].
Qed.

(** Below the overflow threshold rounding adds at most one bit. *)
Lemma binary_round_aux_magnitude (s : bool) (m e : Z) (l : location) (B : Z) :
  0 < prec -> 2 <= emax ->
  0 <= m -> Zdigits2 m + e <= B -> SpecFloat.emin prec emax <= B ->
  B < emax - prec ->
  finite_signed s (binary_round_aux prec emax s m e l) /\
  SFmagnitude_le (B + 1) (binary_round_aux prec emax s m e l).
Proof.
  intros Hprec Hemax Hm HD Hmin HB.
  split; [apply binary_round_aux_finite; trivial; lia|].
  unfold binary_round_aux.
  pose proof (Zdigits2_nonneg m) as Hd.
  destruct (shr_fexp_bounds m e l Hm) as (H1 & E1 & D1).
  destruct (shr_fexp prec emax m e l) as [mrs' e']. simpl in H1, E1, D1.
  destruct (round_nearest_even_bounds _ (loc_of_shr_record mrs') H1) as [H2 D2].
  destruct (shr_fexp_bounds _ e' loc_Exact H2) as (H3 & E3 & D3).
  destruct (shr_fexp prec emax _ e' loc_Exact) as [mrs'' e'']. simpl in H3, E3, D3.
  unfold fexp, SpecFloat.emin in *.
  destruct (shr_m mrs'') as [|p|p]; simpl; trivial; try lia.
  destruct (Z.leb_spec e'' (emax - prec)); simpl in *; lia.
Qed.

(** Above the smallest exponent rounding never loses the leading bit: the
    result is not a zero and is not smaller in magnitude. *)
Lemma shr_fexp_lower (m e : Z) (l : location) :
  0 < prec -> 0 <= m -> 1 <= Zdigits2 m ->
  SpecFloat.emin prec emax < Zdigits2 m + e ->
  1 <= Zdigits2 (shr_m (fst (shr_fexp prec emax m e l))) /\
  Zdigits2 m + e
    <= Zdigits2 (shr_m (fst (shr_fexp prec emax m e l)))
       + snd (shr_fexp prec emax m e l).
Proof.
  intros Hprec Hm Hd HD. unfold shr_fexp, shr.
  destruct (fexp prec emax (Zdigits2 m + e) - e) as [|p|p] eqn:En; simpl;
    rewrite ?shr_record_of_loc_m; try lia.
  pose proof (iter_shr_1_digits_ge p (shr_record_of_loc m l)) as H.
  rewrite shr_record_of_loc_m in H. specialize (H Hm).
  unfold fexp in En. lia.
Qed.

Lemma binary_round_aux_ge (s : bool) (m e : Z) (l : location) (B : Z) :
  0 < prec -> 0 <= m -> 1 <= Zdigits2 m ->
  SpecFloat.emin prec emax < Zdigits2 m + e -> B <= Zdigits2 m + e ->
  SFmagnitude_ge B (binary_round_aux prec emax s m e l).
Proof.
  intros Hprec Hm Hd HD HB. unfold binary_round_aux.
  destruct (shr_fexp_bounds m e l Hm) as (H1 & _ & _).
  destruct (shr_fexp_lower m e l Hprec Hm Hd HD) as (L1 & G1).
  destruct (shr_fexp prec emax m e l) as [mrs' e']. simpl in H1, L1, G1.
  destruct (round_nearest_even_bounds _ (loc_of_shr_record mrs') H1) as [H2 _].
  assert (R : Zdigits2 (shr_m mrs')
              <= Zdigits2 (round_nearest_even (shr_m mrs') (loc_of_shr_record mrs'))).
  { pose proof (Zdigits2_succ_ge _ H1).
    destruct (loc_of_shr_record mrs') as [|[]]; simpl; try lia.
    destruct (Z.even (shr_m mrs')); lia. }
  destruct (shr_fexp_lower _ e' loc_Exact Hprec H2 ltac:(lia) ltac:(lia))
    as (L3 & G3).
  destruct (shr_fexp_bounds _ e' loc_Exact H2) as (H3 & _ & _).
  destruct (shr_fexp prec emax _ e' loc_Exact) as [mrs'' e''].
  simpl in L3, G3, H3.
  destruct (shr_m mrs'') as [|p|p]; simpl in *; try lia.
  destruct (e'' <=? emax - prec); simpl; trivial. lia.
Qed.

(** *** Rounding at the smallest exponent

    The record keeps standing for the same exact value while it is shifted,
    so a value above half the smallest positive number rounds to a
    mantissa that is not zero. *)
Lemma shr_1_represents (mrs : shr_record) (N M : Z) :
  0 < M -> 0 <= shr_m mrs ->
  represents mrs N M -> represents (shr_1 mrs) N (2 * M).
Proof.
  unfold represents. destruct mrs as [m r s]. simpl.
  intros HM Hm (Hrem & -> & ->).
  destruct m as [|[p|p|]|p]; simpl shr_m; simpl shr_r; simpl shr_s; try lia;
    (split; [lia|]);
    repeat match goal with
      | |- context [Z.leb ?a ?b] => destruct (Z.leb_spec a b)
      | |- context [Z.eqb ?a ?b] => destruct (Z.eqb_spec a b)
      end; simpl; split; try reflexivity; lia.
Qed.

Lemma iter_shr_1_represents (p : positive) (mrs : shr_record) (N M : Z) :
  0 < M -> 0 <= shr_m mrs -> represents mrs N M ->
  represents (SpecFloat.iter_pos shr_1 p mrs) N (2 ^ Z.pos p * M).
Proof.
  revert mrs M. induction p as [p IH|p IH|]; simpl SpecFloat.iter_pos;
    intros mrs M HM Hm R.
  - pose proof (shr_1_nonneg mrs Hm) as H0.
    pose proof (shr_1_represents mrs N M HM Hm R) as R0.
    assert (P : 0 < 2 ^ Z.pos p) by (apply Z.pow_pos_nonneg; lia).
    pose proof (IH _ (2 * M) ltac:(lia) H0 R0) as R1.
    destruct (iter_shr_1_digits p _ H0) as [H1 _].
    assert (PM : 0 < 2 ^ Z.pos p * (2 * M)) by (apply Z.mul_pos_pos; lia).
    pose proof (IH _ _ PM H1 R1) as R2.
    replace (2 ^ Z.pos p~1 * M)
      with (2 ^ Z.pos p * (2 ^ Z.pos p * (2 * M))); [exact R2|].
    replace (Z.pos p~1) with (Z.pos p + Z.pos p + 1) by lia.
    rewrite !Z.pow_add_r, Z.pow_1_r by lia. ring.
  - assert (P : 0 < 2 ^ Z.pos p) by (apply Z.pow_pos_nonneg; lia).
    pose proof (IH _ M HM Hm R) as R1.
    destruct (iter_shr_1_digits p _ Hm) as [H1 _].
    assert (PM : 0 < 2 ^ Z.pos p * M) by (apply Z.mul_pos_pos; lia).
    pose proof (IH _ _ PM H1 R1) as R2.
    replace (2 ^ Z.pos p~0 * M) with (2 ^ Z.pos p * (2 ^ Z.pos p * M));
      [exact R2|].
    replace (Z.pos p~0) with (Z.pos p + Z.pos p) by lia.
    rewrite !Z.pow_add_r by lia. ring.
  - rewrite Z.pow_1_r. now apply shr_1_represents.
Qed.

Lemma represents_round (mrs : shr_record) (N M : Z) :
  0 < M -> 0 <= shr_m mrs -> represents mrs N M -> M < 2 * N ->
  1 <= round_nearest_even (shr_m mrs) (loc_of_shr_record mrs).
Proof.
  unfold represents. destruct mrs as [m r s]. simpl.
  intros HM Hm (Hrem & -> & ->) HN.
  destruct (Z.eq_dec m 0) as [->|Hne].
  - destruct (Z.leb_spec M (2 * (N - 0 * M))); [|lia].
    destruct (Z.eqb_spec (N - 0 * M) 0); [lia|].
    destruct (Z.eqb_spec (2 * (N - 0 * M)) M); [lia|]. reflexivity.
  - destruct (_ <=? _), (negb _); simpl; try lia. destruct (Z.even m); lia.
Qed.

(** The quotient and the location the division hands to the rounding. *)
Lemma new_location_represents (q r M : Z) :
  0 < M -> 0 <= r < M ->
  represents (shr_record_of_loc q (new_location M r)) (q * M + r) M.
Proof.
  intros HM Hr. unfold represents, new_location.
  rewrite shr_record_of_loc_m.
  replace (q * M + r - q * M) with r by ring.
  split; [exact Hr|].
  assert (Hodd : Z.even M = false -> 2 * r <> M).
  { intros Ev E. rewrite <- E, Z.even_mul in Ev. discriminate. }
  unfold new_location_even, new_location_odd.
  destruct (Z.even M); [clear Hodd|specialize (Hodd eq_refl)];
    destruct (Z.eqb_spec r 0) as [->|Hne]; simpl;
    try (destruct (Z.leb_spec M (2 * 0)), (Z.eqb_spec (2 * 0) M);
         simpl; split; try reflexivity; lia).
  - destruct (Z.compare_spec (2 * r) M); simpl;
      destruct (Z.leb_spec M (2 * r)), (Z.eqb_spec (2 * r) M);
      simpl; split; try reflexivity; lia.
  - destruct (Z.compare_spec (2 * r + 1) M); simpl;
      destruct (Z.leb_spec M (2 * r)), (Z.eqb_spec (2 * r) M);
      simpl; split; try reflexivity; lia.
Qed.

Lemma binary_round_aux_above_half (s : bool) (m e : Z) (l : location) (N M : Z) :
  0 < prec -> 0 <= m -> 0 < M ->
  represents (shr_record_of_loc m l) N M ->
  Zdigits2 m + e <= SpecFloat.emin prec emax ->
  2 ^ (SpecFloat.emin prec emax - e) * M < 2 * N ->
  SFmagnitude_ge (SpecFloat.emin prec emax + 1)
    (binary_round_aux prec emax s m e l).
Proof.
  intros Hprec Hm HM R HD HN.
  pose proof (Zdigits2_nonneg m) as Hd.
  assert (S1 : exists mrs', shr_fexp prec emax m e l
                            = (mrs', SpecFloat.emin prec emax) /\
               0 <= shr_m mrs' /\
               represents mrs' N (2 ^ (SpecFloat.emin prec emax - e) * M)).
  { unfold shr_fexp, shr.
    assert (F : fexp prec emax (Zdigits2 m + e) = SpecFloat.emin prec emax)
      by (unfold fexp; lia).
    rewrite F.
    destruct (SpecFloat.emin prec emax - e) as [|p|p] eqn:En; try lia.
    - eexists. split; [f_equal; lia|]. rewrite shr_record_of_loc_m.
      split; [exact Hm|]. now rewrite Z.pow_0_r, Z.mul_1_l.
    - eexists. split; [f_equal; lia|].
      assert (Hm0 : 0 <= shr_m (shr_record_of_loc m l))
        by now rewrite shr_record_of_loc_m.
      split; [now apply iter_shr_1_digits|].
      now apply iter_shr_1_represents. }
  destruct S1 as (mrs' & E1 & H1 & R1).
  unfold binary_round_aux. rewrite E1.
  assert (PM : 0 < 2 ^ (SpecFloat.emin prec emax - e) * M).
  { apply Z.mul_pos_pos; trivial. apply Z.pow_pos_nonneg; lia. }
  pose proof (represents_round mrs' N _ PM H1 R1 HN) as R2.
  set (m1 := round_nearest_even (shr_m mrs') (loc_of_shr_record mrs')) in *.
  assert (D1 : 1 <= Zdigits2 m1) by (apply (Zdigits2_ge m1 0); lia).
  destruct (shr_fexp_lower m1 (SpecFloat.emin prec emax) loc_Exact
              Hprec ltac:(lia) D1 ltac:(lia)) as (L3 & G3).
  destruct (shr_fexp_bounds m1 (SpecFloat.emin prec emax) loc_Exact ltac:(lia))
    as (H3 & _ & _).
  destruct (shr_fexp prec emax m1 _ loc_Exact) as [mrs'' e''].
  simpl in L3, G3, H3.
  destruct (shr_m mrs'') as [|p|p]; simpl in *; try lia.
  destruct (e'' <=? emax - prec); simpl; trivial. lia.
Qed.

(** Rounding to nearest even is symmetric in the sign. *)
Lemma binary_round_aux_opp (s : bool) (m e : Z) (l : location) :
  binary_round_aux prec emax (negb s) m e l
    = SFopp (binary_round_aux prec emax s m e l).
Proof.
  unfold binary_round_aux.
  destruct (shr_fexp prec emax m e l) as [mrs' e'].
  destruct (shr_fexp prec emax _ e' loc_Exact) as [mrs'' e''].
  destruct (shr_m mrs''); simpl; trivial.
  destruct (_ <=? _); reflexivity.
Qed.

Lemma binary_round_signed (s : bool) (m : positive) (e : Z) :
  signed s (binary_round prec emax s m e).
Proof.
  unfold binary_round. destruct (shl_align _ _ _) as [mz ez].
  apply binary_round_aux_signed. lia.
Qed.

Lemma SFadd_comm (x y : spec_float) :
  SFadd prec emax x y = SFadd prec emax y x.
Proof.
  destruct x as [sx|sx| |sx mx ex], y as [sy|sy| |sy my ey]; simpl;
    try reflexivity;
    try (destruct sx, sy; reflexivity).
  rewrite (Z.min_comm ey ex). f_equal. apply Z.add_comm.
Qed.

Lemma binary_normalize_not_nan (m e : Z) (sz : bool) :
  binary_normalize prec emax m e sz <> S754_nan.
Proof.
  destruct m as [|p|p]; simpl; try discriminate;
    match goal with |- binary_round _ _ ?s ?m ?e <> _ =>
      pose proof (binary_round_signed s m e) as H end;
    intros E; rewrite E in H; exact H.
Qed.

End Rounding.

(** ** The binary64 operations *)

Section Binary64.
#[local] Open Scope Z_scope.

Lemma prec_pos : 0 < prec.
Proof. reflexivity. Qed.

Lemma emax_ge : 2 <= emax.
Proof. discriminate. Qed.

Lemma binary_round_finite (s : bool) (m : positive) (e : Z) :
  Z.pos (digits2_pos m) + e <= emax - prec ->
  finite_signed s (binary_round prec emax s m e).
Proof.
  intros H. unfold binary_round, shl_align.
  destruct (fexp prec emax (Z.pos (digits2_pos m) + e) - e) as [|d|d] eqn:E;
    apply binary_round_aux_finite;
    auto using prec_pos, emax_ge; simpl; try lia.
  rewrite iter_xO_digits. lia.
Qed.

Lemma binary_normalize_finite (m e : Z) :
  0 <= m -> Zdigits2 m + e <= emax - prec ->
  finite_signed false (binary_normalize prec emax m e false).
Proof.
  destruct m as [|p|p]; simpl; intros Hm H; try reflexivity; try lia.
  now apply binary_round_finite.
Qed.

(** A valid mantissa has at most 53 bits. *)
Lemma valid_mantissa_lt (s : bool) (m : positive) (e : Z) :
  valid_binary (S754_finite s m e) = true -> Z.pos m < 9007199254740992.
Proof.
  unfold SpecFloat.valid_binary, bounded, canonical_mantissa, fexp.
  intros H. apply andb_true_iff in H as [H _]. apply Z.eqb_eq in H.
  pose proof (digits2_pos_gt m) as Hm.
  assert (Hd : Z.pos (digits2_pos m) <= 53) by (unfold prec in H; lia).
  apply Z.lt_le_trans with (1 := Hm).
  change 9007199254740992 with (2 ^ 53).
  apply Z.pow_le_mono_r; lia.
Qed.

Lemma shl_align_same (m : positive) (e : Z) : shl_align m e e = (m, e).
Proof. unfold shl_align. now rewrite Z.sub_diag. Qed.

Lemma shl_align_down (m : positive) (e e' : Z) :
  e' < e -> Z.pos (fst (shl_align m e e')) = Z.pos m * 2 ^ (e - e').
Proof.
  intros H. unfold shl_align.
  destruct (e' - e) as [|d|d] eqn:E; try lia.
  cbn [fst]. rewrite iter_xO_value. f_equal. f_equal. lia.
Qed.

(** The aligned integer difference behind [1.0 - h] for [h] in the unit
    interval: it is not negative and stays below [2 ^ 1]. *)
Lemma sub_one_diff (m : positive) (e : Z) :
  Z.pos m < 9007199254740992 ->
  e < -52 \/ (e = -52 /\ Z.pos m <= 4503599627370496) ->
  let ez := Z.min (-52) e in
  let d := Z.pos (fst (shl_align 4503599627370496 (-52) ez))
           - Z.pos (fst (shl_align m e ez)) in
  0 <= d /\ Zdigits2 d + ez <= 1.
Proof.
  intros Hm [He|[-> Hle]]; cbv zeta.
  - rewrite Z.min_r by lia. rewrite shl_align_same, shl_align_down by lia.
    cbn [fst].
    assert (Hk : 0 < -52 - e) by lia.
    assert (H2 : 2 ^ 1 <= 2 ^ (-52 - e)) by (apply Z.pow_le_mono_r; lia).
    change (2 ^ 1) with 2 in H2.
    set (P := 2 ^ (-52 - e)) in *.
    assert (Hd : 0 <= 4503599627370496 * P - Z.pos m) by lia.
    split; [exact Hd|].
    assert (Zdigits2 (4503599627370496 * P - Z.pos m) <= (52 + (-52 - e)) + 1).
    { apply Zdigits2_le; try lia. rewrite Z.pow_add_r by lia.
      fold P. change (2 ^ 52) with 4503599627370496. lia. }
    lia.
  - rewrite Z.min_id, !shl_align_same. cbn [fst].
    split; [lia|].
    assert (Zdigits2 (4503599627370496 - Z.pos m) <= 52 + 1)
      by (apply Zdigits2_le; lia).
    lia.
Qed.

(** [1.0 - h] for a float [0 <= h <= 1]: a zero or a finite number, of
    positive sign. *)
Lemma SFsub_one_unit (h : spec_float) :
  valid_binary h = true ->
  SFleb (S754_zero false) h = true -> SFleb h SFone = true ->
  finite_signed false (SF64sub SFone h).
Proof.
  intros Hv H0 H1.
  destruct h as [s|s| |s m e].
  - exact eq_refl.
  - destruct s; discriminate.
  - discriminate.
  - destruct s; [discriminate H0|].
    pose proof (valid_mantissa_lt _ _ _ Hv) as Hm.
    apply SFleb_finite_pos in H1.
    destruct (sub_one_diff m e Hm H1) as [Hd HD].
    unfold SF64sub, SFone, one_mantissa, SFsub, cond_Zopp.
    apply binary_normalize_finite; [exact Hd|].
    eapply Z.le_trans; [exact HD|discriminate].
Qed.

Lemma SFadd_finite_not_nan (x y : spec_float) :
  SFis_finite x -> SFis_finite y -> SF64add x y <> S754_nan.
Proof.
  destruct x as [sx|sx| |sx mx ex], y as [sy|sy| |sy my ey];
    simpl; try contradiction; intros _ _; try discriminate.
  - destruct sx, sy; discriminate.
  - apply binary_normalize_not_nan.
Qed.

Lemma SFmul_finite_signed (sx sy : bool) (mx my : positive) (ex ey : Z) :
  signed (xorb sx sy)
    (SF64mul (S754_finite sx mx ex) (S754_finite sy my ey)).
Proof. apply binary_round_aux_signed. lia. Qed.

Lemma SFmul_finite_not_nan (x y : spec_float) :
  SFis_finite x -> SFis_finite y -> SF64mul x y <> S754_nan.
Proof.
  destruct x as [sx|sx| |sx mx ex], y as [sy|sy| |sy my ey];
    try contradiction; intros _ _; try discriminate.
  pose proof (SFmul_finite_signed sx sy mx my ex ey) as H.
  intros E. rewrite E in H. exact H.
Qed.

Lemma SFmul_zero_l (x y : spec_float) :
  SFis_zero x -> SFis_finite y -> SFis_zero (SF64mul x y).
Proof.
  destruct x, y; simpl; try contradiction; intros _ _; exact I.
Qed.

Lemma SFmul_zero_r (x y : spec_float) :
  SFis_finite x -> SFis_zero y -> SFis_zero (SF64mul x y).
Proof.
  destruct x, y; simpl; try contradiction; intros _ _; exact I.
Qed.

Lemma SFdiv_finite_signed (sx sy : bool) (mx my : positive) (ex ey : Z) :
  signed (xorb sx sy)
    (SF64div (S754_finite sx mx ex) (S754_finite sy my ey)).
Proof.
  unfold SF64div, SFdiv, SFdiv_core_binary.
  set (sh := _ - _ - Z.min _ _).
  set (m' := match sh with Z0 => _ | Z.pos _ => _ | Z.neg _ => _ end).
  assert (Hm : 0 <= m').
  { subst m'. destruct sh; try lia. apply Z.shiftl_nonneg. lia. }
  pose proof (Z.div_pos m' (Z.pos my) Hm ltac:(lia)) as Hq.
  unfold Z.div in Hq.
  destruct (Z.div_eucl m' (Z.pos my)) as [q r].
  now apply binary_round_aux_signed.
Qed.

(** A quotient by a finite non-zero divisor is NaN only if the dividend is. *)
Lemma SFdiv_not_nan (x y : spec_float) :
  x <> S754_nan -> SFis_finite y -> ~ SFis_zero y -> SF64div x y <> S754_nan.
Proof.
  destruct x as [sx|sx| |sx mx ex], y as [sy|sy| |sy my ey];
    simpl; try contradiction; try congruence; intros _ _ _; try discriminate.
  pose proof (SFdiv_finite_signed sx sy mx my ex ey) as H.
  intros E. unfold SF64div in H. simpl in H. rewrite E in H. exact H.
Qed.

(** A zero divided by anything but a zero or a NaN is a zero. *)
Lemma SFdiv_zero (x y : spec_float) :
  SFis_zero x -> y <> S754_nan -> ~ SFis_zero y -> SFis_zero (SF64div x y).
Proof.
  destruct x, y; simpl; try contradiction; try congruence; intros _ _ _; exact I.
Qed.

(** A finite dividend gives NaN only over a zero or a NaN. *)
Lemma SFdiv_finite_not_nan (x y : spec_float) :
  SFis_finite x -> y <> S754_nan -> ~ SFis_zero y -> SF64div x y <> S754_nan.
Proof.
  destruct x as [sx|sx| |sx mx ex], y as [sy|sy| |sy my ey];
    simpl; try contradiction; try congruence; intros _ _ _; try discriminate.
  pose proof (SFdiv_finite_signed sx sy mx my ex ey) as H.
  intros E. unfold SF64div in H. simpl in H. rewrite E in H. exact H.
Qed.

(** A zero times an infinity or a NaN is NaN, and NaN stays NaN when
    divided. *)
Lemma SFmul_zero_not_finite (x y : spec_float) :
  SFis_zero x -> ~ SFis_finite y -> SF64mul x y = S754_nan.
Proof.
  destruct x, y; simpl; try contradiction; intros _ H; trivial; now destruct H.
Qed.

Lemma SFeqb_nan_l (y : spec_float) : SFeqb S754_nan y = false.
Proof. reflexivity. Qed.

(** *** Signs of quotients by a positive divisor *)

Lemma SFltb_zero_positive (y : spec_float) :
  SFltb (S754_zero false) y = true -> SFpositive y.
Proof. destruct y as [s|[]| |[] m e]; simpl; trivial; discriminate. Qed.

Lemma SFpositive_not_zero (y : spec_float) :
  SFpositive y -> y <> S754_nan /\ ~ SFis_zero y.
Proof. destruct y as [s|[]| |[] m e]; simpl; try contradiction; auto. Qed.

Lemma unit_interval_shape (h : spec_float) :
  SFleb (S754_zero false) h = true -> SFleb h SFone = true ->
  weak_finite false h.
Proof.
  destruct h as [s|[]| |[] m e]; simpl; trivial; discriminate.
Qed.

Lemma finite_signed_weak (s : bool) (x : spec_float) :
  finite_signed s x -> weak_finite s x.
Proof. destruct x; simpl; trivial. Qed.

Lemma SFopp_weak_finite (s : bool) (x : spec_float) :
  weak_finite s x -> weak_finite (negb s) (SFopp x).
Proof. destruct x; simpl; trivial. now intros ->. Qed.

Lemma SFdiv_positive_weak (s : bool) (x y : spec_float) :
  weak_finite s x -> SFpositive y -> weak_signed s (SF64div x y).
Proof.
  destruct x as [sx|sx| |sx mx ex], y as [sy|[]| |[] my ey];
    simpl; try contradiction; trivial; intros <- _.
  pose proof (SFdiv_finite_signed sx false mx my ex ey) as H.
  rewrite xorb_false_r in H. unfold SF64div in H. simpl in H.
  destruct (let '(_, _, _) := SFdiv_core_binary _ _ _ _ _ _ in _);
    simpl in *; trivial.
Qed.

Lemma weak_signed_nonneg (d : spec_float) :
  weak_signed false d -> SFleb (S754_zero false) d = true.
Proof.
  destruct d as [s|s| |s m e]; simpl; intros H; try contradiction;
    try subst s; reflexivity.
Qed.

Lemma weak_signed_nonpos (d : spec_float) :
  weak_signed true d -> SFleb d (S754_zero false) = true.
Proof.
  destruct d as [s|s| |s m e]; simpl; intros H; try contradiction;
    try subst s; reflexivity.
Qed.

(** *** Magnitudes in the unit interval *)

Lemma emin_value : SpecFloat.emin prec emax = -1074.
Proof. reflexivity. Qed.

Lemma valid_digits_le (s : bool) (m : positive) (e : Z) :
  valid_binary (S754_finite s m e) = true -> Z.pos (digits2_pos m) <= 53.
Proof.
  unfold SpecFloat.valid_binary, bounded, canonical_mantissa, fexp.
  intros H. apply andb_true_iff in H as [H _]. apply Z.eqb_eq in H.
  unfold prec in H. lia.
Qed.

Lemma binary_round_magnitude (s : bool) (m : positive) (e B : Z) :
  Z.pos (digits2_pos m) + e <= B -> -1074 <= B -> B < 971 ->
  finite_signed s (binary_round prec emax s m e) /\
  SFmagnitude_le (B + 1) (binary_round prec emax s m e).
Proof.
  intros H Hlo Hhi. unfold binary_round, shl_align.
  destruct (fexp prec emax (Z.pos (digits2_pos m) + e) - e) as [|d|d] eqn:E;
    apply binary_round_aux_magnitude;
    auto using prec_pos, emax_ge; rewrite ?emin_value;
    simpl Zdigits2; rewrite ?iter_xO_digits;
    unfold emax, prec in *; lia.
Qed.

Lemma binary_normalize_magnitude (m e B : Z) :
  0 <= m -> Zdigits2 m + e <= B -> -1074 <= B -> B < 971 ->
  finite_signed false (binary_normalize prec emax m e false) /\
  SFmagnitude_le (B + 1) (binary_normalize prec emax m e false).
Proof.
  destruct m as [|p|p]; simpl; intros Hm H Hlo Hhi; try lia.
  now apply binary_round_magnitude.
Qed.

(** [1.0 - h] for [0 <= h <= 1] is below [2 ^ 2]. *)
Lemma SFsub_one_unit_magnitude (h : spec_float) :
  valid_binary h = true ->
  SFleb (S754_zero false) h = true -> SFleb h SFone = true ->
  SFmagnitude_le 2 (SF64sub SFone h).
Proof.
  intros Hv H0 H1.
  destruct h as [s|s| |s m e].
  - now vm_compute.
  - destruct s; discriminate.
  - discriminate.
  - destruct s; [discriminate H0|].
    pose proof (valid_mantissa_lt _ _ _ Hv) as Hm.
    apply SFleb_finite_pos in H1.
    destruct (sub_one_diff m e Hm H1) as [Hd HD].
    unfold SF64sub, SFone, one_mantissa, SFsub, cond_Zopp.
    apply (binary_normalize_magnitude _ _ 1); trivial; lia.
Qed.

Lemma unit_interval_magnitude (x : spec_float) :
  valid_binary x = true ->
  SFleb (S754_zero false) x = true -> SFleb x SFone = true ->
  SFmagnitude_le 1 x.
Proof.
  intros Hv H0 H1.
  destruct x as [s|s| |s m e]; try discriminate; try exact I.
  - destruct s; discriminate.
  - destruct s; [discriminate H0|].
    pose proof (valid_digits_le _ _ _ Hv) as Hd.
    apply SFleb_finite_pos in H1. simpl. lia.
Qed.

Lemma mul_digits (m1 m2 : positive) :
  Z.pos (digits2_pos (m1 * m2))
    <= Z.pos (digits2_pos m1) + Z.pos (digits2_pos m2) + 1.
Proof.
  apply digits2_pos_le; [lia|].
  pose proof (digits2_pos_gt m1). pose proof (digits2_pos_gt m2).
  rewrite Pos2Z.inj_mul, Z.pow_add_r by lia.
  apply Z.mul_le_mono_nonneg; lia.
Qed.

(** A product of two small finite numbers is finite. *)
Lemma SFmul_magnitude (s s' : bool) (x y : spec_float) (B1 B2 : Z) :
  weak_finite s x -> weak_finite s' y ->
  SFmagnitude_le B1 x -> SFmagnitude_le B2 y ->
  -1074 <= B1 + B2 + 1 -> B1 + B2 + 1 < 971 ->
  weak_finite (xorb s s') (SF64mul x y) /\
  SFmagnitude_le (B1 + B2 + 2) (SF64mul x y).
Proof.
  destruct x as [sx|sx| |sx mx ex], y as [sy|sy| |sy my ey];
    simpl; try contradiction; try (intros; split; exact I).
  intros <- <- H1 H2 Hlo Hhi.
  pose proof (mul_digits mx my) as Hd.
  destruct (binary_round_aux_magnitude prec emax (xorb sx sy)
              (Z.pos (mx * my)) (ex + ey) loc_Exact (B1 + B2 + 1)) as [F M];
    auto using prec_pos, emax_ge; rewrite ?emin_value;
    unfold emax, prec; simpl Zdigits2; try lia.
  split; [now apply finite_signed_weak|].
  now replace (B1 + B2 + 2) with (B1 + B2 + 1 + 1) by lia.
Qed.

(** *** Signs of products, quotients and sums *)

Lemma signed_weak (s : bool) (x : spec_float) : signed s x -> weak_signed s x.
Proof. destruct x; simpl; trivial. Qed.

(** *** [1.0 - h] above the unit interval *)

(** A valid mantissa above the smallest exponent has its leading bit set. *)
Lemma valid_normal_mantissa (s : bool) (m : positive) (e : Z) :
  valid_binary (S754_finite s m e) = true -> -1074 < e ->
  4503599627370496 <= Z.pos m.
Proof.
  unfold SpecFloat.valid_binary, bounded, canonical_mantissa, fexp.
  intros H He. apply andb_true_iff in H as [H _]. apply Z.eqb_eq in H.
  rewrite emin_value in H. unfold prec in H.
  assert (Hd : Z.pos (digits2_pos m) = 53) by lia.
  pose proof (Pos.size_le m) as L. apply Pos2Z.pos_le_pos in L.
  rewrite Pos2Z.inj_pow, <- digits2_pos_size, Hd in L.
  pose proof (Pos2Z.inj_xO m) as X.
  change (2 ^ 53) with 9007199254740992 in L. lia.
Qed.

Lemma binary_normalize_nonpos (m e : Z) :
  m <= 0 -> weak_signed true (binary_normalize prec emax m e false).
Proof.
  destruct m as [|p|p]; simpl; intros H; trivial; try lia.
  apply signed_weak, binary_round_signed.
Qed.

(** [1.0 - h] for a finite [h >= 1]: a zero or a negative number. *)
Lemma SFsub_one_above (h : spec_float) :
  valid_binary h = true -> SFis_finite h -> SFleb SFone h = true ->
  weak_signed true (SF64sub SFone h).
Proof.
  intros Hv Hf H1.
  destruct h as [s|s| |s m e]; try contradiction; try discriminate.
  destruct s; [discriminate H1|].
  apply SFleb_finite_pos in H1. unfold one_mantissa in H1.
  unfold SF64sub, SFone, one_mantissa, SFsub, cond_Zopp.
  apply binary_normalize_nonpos.
  destruct H1 as [He|[<- Hm]].
  - pose proof (valid_normal_mantissa _ _ _ Hv ltac:(lia)) as Hn.
    rewrite Z.min_l by lia. rewrite shl_align_same, shl_align_down by lia.
    cbn [fst].
    assert (H2 : 2 ^ 1 <= 2 ^ (e - -52)) by (apply Z.pow_le_mono_r; lia).
    change (2 ^ 1) with 2 in H2.
    set (P := 2 ^ (e - -52)) in *.
    assert (Z.pos m * 2 <= Z.pos m * P) by (apply Z.mul_le_mono_nonneg_l; lia).
    lia.
  - rewrite Z.min_id, !shl_align_same. cbn [fst]. lia.
Qed.

(** *** Quotients and differences that do not underflow *)

Lemma binary_round_ge (s : bool) (m : positive) (e B : Z) :
  -1074 < Z.pos (digits2_pos m) + e -> B <= Z.pos (digits2_pos m) + e ->
  SFmagnitude_ge B (binary_round prec emax s m e).
Proof.
  intros H HB. unfold binary_round, shl_align.
  destruct (fexp prec emax (Z.pos (digits2_pos m) + e) - e) as [|d|d] eqn:E;
    apply binary_round_aux_ge;
    auto using prec_pos; rewrite ?emin_value;
    simpl Zdigits2; rewrite ?iter_xO_digits; lia.
Qed.

Lemma binary_normalize_ge (m e B : Z) :
  0 < m -> -1074 < Zdigits2 m + e -> B <= Zdigits2 m + e ->
  SFmagnitude_ge B (binary_normalize prec emax m e false).
Proof.
  destruct m as [|p|p]; simpl; intros Hm H HB; try lia.
  now apply binary_round_ge.
Qed.

(** The quotient of two finite numbers [x] and [y] is not rounded to a zero
    when [x / y] is above [2 ^ -1075], half the smallest positive float: it
    is enough that the bit lengths of the two values differ by no more than
    1074. *)
Lemma SFdiv_finite_nonzero (sx sy : bool) (mx my : positive) (ex ey : Z) :
  -1074 <= (Z.pos (digits2_pos mx) + ex) - (Z.pos (digits2_pos my) + ey) ->
  SFmagnitude_ge (-1073)
    (SF64div (S754_finite sx mx ex) (S754_finite sy my ey)).
Proof.
  intros HD. unfold SF64div, SFdiv, SFdiv_core_binary.
  simpl Zdigits2.
  set (d1 := Z.pos (digits2_pos mx)) in *.
  set (d2 := Z.pos (digits2_pos my)) in *.
  set (e' := Z.min (fexp prec emax (d1 + ex - (d2 + ey))) (ex - ey)).
  assert (He' : e' <= ex - ey /\ e' <= fexp prec emax (d1 + ex - (d2 + ey)))
    by (subst e'; lia).
  destruct He' as [He1 He2]. unfold fexp in He2. rewrite emin_value in He2.
  unfold prec in He2.
  set (sh := ex - ey - e') in *.
  set (m' := match sh with Z0 => _ | Z.pos _ => _ | Z.neg _ => _ end).
  assert (Hm' : m' = Z.pos mx * 2 ^ sh).
  { subst m'. destruct sh as [|p|p] eqn:Es; try lia.
    apply Z.shiftl_mul_pow2. lia. }
  assert (Psh : 0 < 2 ^ sh) by (apply Z.pow_pos_nonneg; subst sh; lia).
  pose proof (digits2_pos_ge_pow mx) as Lx. fold d1 in Lx.
  pose proof (digits2_pos_gt my) as Uy. fold d2 in Uy.
  assert (Lm : 2 ^ (d1 - 1) * 2 ^ sh <= m')
    by (rewrite Hm'; apply Z.mul_le_mono_nonneg_r; lia).
  set (t := d1 - 1 - d2 + sh).
  assert (Hq : 0 <= t -> 2 ^ t <= m' / Z.pos my).
  { intros Ht. apply Z.div_le_lower_bound; [lia|].
    assert (P1 : 0 < 2 ^ t) by (apply Z.pow_pos_nonneg; lia).
    assert (E : 2 ^ d2 * 2 ^ t = 2 ^ (d1 - 1) * 2 ^ sh).
    { rewrite <- !Z.pow_add_r by (subst d1 d2 sh; lia). f_equal. subst t. lia. }
    apply Z.le_trans with (2 ^ d2 * 2 ^ t);
      [apply Z.mul_le_mono_nonneg_r; lia|]. now rewrite E. }
  pose proof (Z_div_mod m' (Z.pos my) ltac:(lia)) as DM.
  pose proof (Z.div_pos m' (Z.pos my) ltac:(lia) ltac:(lia)) as Q0.
  unfold Z.div in Hq, Q0.
  destruct (Z.div_eucl m' (Z.pos my)) as [q r]. simpl in Hq, Q0.
  destruct DM as [DM Hr].
  destruct (Z_lt_le_dec (-1074) (Zdigits2 q + e')) as [Hbig|Hsmall].
  - assert (Dq : 1 <= Zdigits2 q).
    { destruct (Z.eq_dec q 0) as [->|Hne]; [|apply (Zdigits2_ge q 0); lia].
      simpl in Hbig.
      assert (Ht : 0 <= t) by (subst t sh; lia).
      pose proof (Hq Ht). pose proof (Z.pow_pos_nonneg 2 t ltac:(lia) Ht). lia. }
    apply binary_round_aux_ge; auto using prec_pos; rewrite ?emin_value; lia.
  - pose proof (Zdigits2_nonneg q) as Dn.
    apply (binary_round_aux_above_half prec emax _ q e' _ m' (Z.pos my));
      auto using prec_pos; rewrite ?emin_value; try lia.
    + rewrite DM, (Z.mul_comm (Z.pos my) q).
      apply new_location_represents; lia.
    + set (n := -1074 - e').
      assert (Pn : 0 < 2 ^ n) by (apply Z.pow_pos_nonneg; subst n; lia).
      assert (E : 2 ^ n * 2 ^ d2 <= 2 * (2 ^ (d1 - 1) * 2 ^ sh)).
      { rewrite <- !Z.pow_add_r by (subst n d1 d2 sh; lia).
        replace (2 * 2 ^ (d1 - 1 + sh)) with (2 ^ (1 + (d1 - 1 + sh)))
          by (rewrite Z.pow_add_r by (subst d1 sh; lia); reflexivity).
        apply Z.pow_le_mono_r; subst n sh; lia. }
      assert (2 ^ n * Z.pos my < 2 ^ n * 2 ^ d2)
        by (apply Z.mul_lt_mono_pos_l; lia).
      lia.
Qed.

(** [1.0 - h] for [0 <= h < 1] is at least [2 ^ -53]. *)
Lemma SFsub_one_below (h : spec_float) :
  valid_binary h = true ->
  SFleb (S754_zero false) h = true -> SFleb h SFone = true ->
  SFeqb h SFone = false ->
  SFmagnitude_ge (-52) (SF64sub SFone h).
Proof.
  intros Hv H0 H1 Hne.
  destruct h as [s|s| |s m e].
  - now vm_compute.
  - destruct s; discriminate.
  - discriminate.
  - destruct s; [discriminate H0|].
    pose proof (valid_mantissa_lt _ _ _ Hv) as Hm.
    apply SFleb_finite_pos in H1. unfold one_mantissa in H1.
    unfold SF64sub, SFone, one_mantissa, SFsub, cond_Zopp.
    destruct H1 as [He|[-> Hle]].
    + rewrite Z.min_r by lia. rewrite shl_align_same, shl_align_down by lia.
      cbn [fst].
      assert (Hk : 0 <= -52 - e - 1) by lia.
      pose proof (Z.pow_pos_nonneg 2 (-52 - e - 1) ltac:(lia) Hk) as HP.
      replace (-52 - e) with (Z.succ (-52 - e - 1)) by lia.
      rewrite Z.pow_succ_r by lia.
      set (P := 2 ^ (-52 - e - 1)) in *.
      assert (Hd : P <= 4503599627370496 * (2 * P) - Z.pos m) by lia.
      pose proof (Zdigits2_ge _ _ Hk Hd) as Dd.
      apply binary_normalize_ge; lia.
    + exfalso.
      pose proof (valid_normal_mantissa _ _ _ Hv ltac:(lia)) as Hn.
      assert (m = 4503599627370496%positive) as -> by lia.
      discriminate Hne.
Qed.

(** *** Magnitudes read off comparisons with a power of two *)

Lemma finite_magnitude (x : spec_float) :
  valid_binary x = true -> SFis_finite x -> SFmagnitude_le 1024 x.
Proof.
  destruct x as [s|s| |s m e]; simpl; try contradiction; trivial.
  intros Hv _. pose proof (valid_digits_le s m e Hv) as Hd.
  unfold bounded in Hv. apply andb_true_iff in Hv as [_ He].
  apply Z.leb_le in He. unfold emax, prec in He. lia.
Qed.

(** A positive [x < 2 ^ (e1 + 52)]. *)
Lemma below_pow2_magnitude (x : spec_float) (e1 : Z) :
  valid_binary x = true -> SFpositive x ->
  SFltb x (S754_finite false one_mantissa e1) = true ->
  SFmagnitude_le (e1 + 52) x.
Proof.
  destruct x as [s|[]| |[] m e]; simpl SFpositive; try contradiction;
    try discriminate.
  intros Hv _ H. pose proof (valid_digits_le _ _ _ Hv) as Hd.
  apply SFltb_finite_pos in H. unfold one_mantissa in H. simpl.
  destruct H as [He|[-> Hm]]; [lia|].
  pose proof (Zdigits2_lt (Z.pos m) 52 ltac:(lia) ltac:(lia) Hm) as Hk.
  simpl in Hk. lia.
Qed.

(** An [h >= 2 ^ (e1 + 52)]. *)
Lemma above_pow2_magnitude (h : spec_float) (e1 : Z) :
  valid_binary h = true -> -1074 <= e1 ->
  SFleb (S754_finite false one_mantissa e1) h = true ->
  SFmagnitude_ge (e1 + 53) h.
Proof.
  destruct h as [s|[]| |[] m e]; simpl; trivial; try discriminate.
  intros Hv He1 H. apply SFleb_finite_pos in H. unfold one_mantissa in H.
  assert (Hm : 4503599627370496 <= Z.pos m).
  { destruct H as [He|[_ Hm]]; [|exact Hm].
    apply (valid_normal_mantissa false m e Hv). lia. }
  pose proof (Zdigits2_ge (Z.pos m) 52 ltac:(lia) Hm) as Hk.
  simpl in Hk. lia.
Qed.

(** A positive [x] is at least the smallest subnormal, [2 ^ -1074]. *)
Lemma positive_magnitude (x : spec_float) :
  valid_binary x = true -> SFpositive x -> SFmagnitude_ge (-1073) x.
Proof.
  destruct x as [s|[]| |[] m e]; simpl SFpositive; try contradiction;
    simpl; trivial.
  unfold bounded, canonical_mantissa, fexp, SpecFloat.emin, prec, emax.
  intros Hv _. apply andb_true_iff in Hv as [H _]. apply Z.eqb_eq in H.
  pose proof (Pos2Z.is_pos (digits2_pos m)). lia.
Qed.

Lemma SFopp_magnitude_ge (B : Z) (x : spec_float) :
  SFmagnitude_ge B x -> SFmagnitude_ge B (SFopp x).
Proof. destruct x; simpl; trivial. Qed.

(** A finite [x] of at least [2 ^ (Bx - 1)] over a positive [y] below
    [2 ^ By]: the quotient is not a zero when [Bx - By >= -1074]. *)
Lemma SFdiv_nonzero (x y : spec_float) (Bx By : Z) :
  SFis_finite x -> SFmagnitude_ge Bx x ->
  SFpositive y -> SFmagnitude_le By y -> -1074 <= Bx - By ->
  SFmagnitude_ge (-1073) (SF64div x y).
Proof.
  destruct x as [sx|sx| |sx mx ex]; simpl; try contradiction.
  destruct y as [sy|[]| |[] my ey]; simpl; try contradiction.
  intros _ Hx _ Hy HB. apply SFdiv_finite_nonzero. lia.
Qed.

Lemma weak_signed_positive (d : spec_float) (B : Z) :
  weak_signed false d -> SFmagnitude_ge B d ->
  SFltb (S754_zero false) d = true.
Proof.
  destruct d as [s|s| |s m e]; simpl; intros H G; try contradiction;
    subst s; reflexivity.
Qed.

Lemma weak_signed_negative (d : spec_float) (B : Z) :
  weak_signed true d -> SFmagnitude_ge B d ->
  SFltb d (S754_zero false) = true.
Proof.
  destruct d as [s|s| |s m e]; simpl; intros H G; try contradiction;
    subst s; reflexivity.
Qed.

Lemma SFmul_weak (s s' : bool) (x y : spec_float) :
  weak_finite s x -> weak_finite s' y -> weak_signed (xorb s s') (SF64mul x y).
Proof.
  destruct x as [sx|sx| |sx mx ex], y as [sy|sy| |sy my ey];
    simpl; try contradiction; trivial.
  intros <- <-. apply signed_weak, SFmul_finite_signed.
Qed.

Lemma SFdiv_weak_pos (s : bool) (x y : spec_float) :
  weak_signed s x -> SFis_finite y -> SFpositive y ->
  weak_signed s (SF64div x y).
Proof.
  destruct x as [sx|sx| |sx mx ex], y as [sy|[]| |[] my ey];
    simpl; try contradiction; trivial; intros <- _ _.
  - apply xorb_false_r.
  - pose proof (SFdiv_finite_signed sx false mx my ex ey) as H.
    rewrite xorb_false_r in H. now apply signed_weak.
Qed.

Lemma SFadd_zero_weak (s : bool) (x y : spec_float) :
  SFis_zero x -> weak_signed s y -> weak_signed s (SF64add x y).
Proof.
  destruct x as [sx|sx| |sx mx ex], y as [sy|sy| |sy my ey];
    simpl; try contradiction; trivial.
  destruct sx, sy; trivial.
Qed.

(** A finite number and its negation add up to [+0.0]. *)
Lemma SFadd_opp (x : spec_float) :
  SFis_finite x -> SF64add x (SFopp x) = S754_zero false.
Proof.
  destruct x as [s|s| |s m e]; simpl; try contradiction; intros _.
  - now destruct s.
  - rewrite Z.min_id, shl_align_same. cbn [fst].
    replace (cond_Zopp s (Z.pos m) + cond_Zopp (negb s) (Z.pos m)) with 0
      by (destruct s; simpl; lia).
    reflexivity.
Qed.

(** The operations are symmetric in the sign of their first operand. *)
Lemma SFdiv_opp_l (x y : spec_float) :
  SF64div (SFopp x) y = SFopp (SF64div x y).
Proof.
  destruct x as [sx|sx| |sx mx ex], y as [sy|sy| |sy my ey];
    try reflexivity; try (destruct sx, sy; reflexivity).
  unfold SF64div, SFdiv, SFopp at 1.
  destruct (SFdiv_core_binary _ _ _ _ _ _) as [[mz ez] lz].
  rewrite <- binary_round_aux_opp. now destruct sx, sy.
Qed.

Lemma SFmul_opp_l (x y : spec_float) :
  SF64mul (SFopp x) y = SFopp (SF64mul x y).
Proof.
  destruct x as [sx|sx| |sx mx ex], y as [sy|sy| |sy my ey];
    try reflexivity; try (destruct sx, sy; reflexivity).
  unfold SF64mul, SFmul, SFopp at 1.
  rewrite <- binary_round_aux_opp. now destruct sx, sy.
Qed.

Lemma SFcompare_nan_r (x : spec_float) : SFcompare x S754_nan = None.
Proof. now destruct x. Qed.

(** The operations respect [SFsame]: the sign of a zero operand shows in the
    result at most as the sign of a zero.  (Division by a zero is left out:
    Python raises there.) *)
Lemma SFadd_same (x x' y y' : spec_float) :
  SFsame x x' -> SFsame y y' -> SFsame (SF64add x y) (SF64add x' y').
Proof.
  intros [<-|[Hx Hx']] [<-|[Hy Hy']]; [now left|..];
    destruct x as [sx|sx| |]; try contradiction;
    try (destruct x' as [sx'|sx'| |]; try contradiction);
    destruct y as [sy|sy| |]; try contradiction;
    try (destruct y' as [sy'|sy'| |]; try contradiction);
    repeat match goal with b : bool |- _ => destruct b end;
    simpl; first [now left | right; split; exact I].
Qed.

Lemma SFmul_same (x x' y y' : spec_float) :
  SFsame x x' -> SFsame y y' -> SFsame (SF64mul x y) (SF64mul x' y').
Proof.
  intros [<-|[Hx Hx']] [<-|[Hy Hy']]; [now left|..];
    destruct x as [sx|sx| |]; try contradiction;
    try (destruct x' as [sx'|sx'| |]; try contradiction);
    destruct y as [sy|sy| |]; try contradiction;
    try (destruct y' as [sy'|sy'| |]; try contradiction);
    simpl; first [now left | right; split; exact I].
Qed.

Lemma SFdiv_same (x x' y : spec_float) :
  SFsame x x' -> ~ SFis_zero y -> SFsame (SF64div x y) (SF64div x' y).
Proof.
  intros [<-|[Hx Hx']] Hy; [now left|].
  destruct x as [sx|sx| |]; try contradiction;
    destruct x' as [sx'|sx'| |]; try contradiction;
    destruct y as [sy|sy| |]; simpl in *; try tauto;
    first [now left | right; split; exact I].
Qed.

Lemma SFopp_same (x x' : spec_float) :
  SFsame x x' -> SFsame (SFopp x) (SFopp x').
Proof.
  intros [<-|[Hx Hx']]; [now left|].
  destruct x, x'; try contradiction. right. split; exact I.
Qed.

Lemma SFsub_same_r (x y y' : spec_float) :
  ~ SFis_zero x -> SFsame y y' -> SF64sub x y = SF64sub x y'.
Proof.
  intros Hx [<-|[Hy Hy']]; [reflexivity|].
  destruct y, y'; try contradiction.
  destruct x; simpl in *; tauto.
Qed.

Lemma SFcompare_same (x x' y y' : spec_float) :
  SFsame x x' -> SFsame y y' -> SFcompare x y = SFcompare x' y'.
Proof.
  intros [<-|[Hx Hx']] [<-|[Hy Hy']]; [reflexivity|..];
    destruct x as [sx|sx| |]; try contradiction;
    try (destruct x' as [sx'|sx'| |]; try contradiction);
    destruct y as [sy|sy| |]; try contradiction;
    try (destruct y' as [sy'|sy'| |]; try contradiction);
    reflexivity.
Qed.

End Binary64.

(** ** From the primitive floats to their specification *)

Section Bridge.
#[local] Open Scope float_scope.

Lemma Prim2SF_zero : Prim2SF 0 = S754_zero false.
Proof. reflexivity. Qed.

Lemma Prim2SF_one : Prim2SF 1 = SFone.
Proof. reflexivity. Qed.

Lemma Prim2SF_infinity : Prim2SF infinity = S754_infinity false.
Proof. reflexivity. Qed.

Lemma eqb_zero_iff (x : float) : (x =? 0) = true <-> SFis_zero (Prim2SF x).
Proof.
  rewrite FloatAxioms.eqb_spec, Prim2SF_zero. unfold SFeqb.
  destruct (Prim2SF x) as [s|s| |s m e]; simpl; try (destruct s);
    split; intros H; try discriminate; try contradiction; trivial.
Qed.

Lemma eqb_zero_false_iff (x : float) :
  (x =? 0) = false <-> ~ SFis_zero (Prim2SF x).
Proof.
  rewrite <- eqb_zero_iff. destruct (x =? 0); split; congruence.
Qed.

Lemma is_nan_iff (x : float) : is_nan x = true <-> Prim2SF x = S754_nan.
Proof.
  unfold is_nan. rewrite FloatAxioms.eqb_spec. unfold SFeqb. split.
  - intros H. destruct (Prim2SF x) eqn:E; trivial;
      rewrite SFcompare_refl in H by congruence; discriminate.
  - intros ->. reflexivity.
Qed.

Lemma is_nan_false_iff (x : float) :
  is_nan x = false <-> Prim2SF x <> S754_nan.
Proof.
  rewrite <- is_nan_iff. destruct (is_nan x); split; congruence.
Qed.

Lemma is_infinity_iff (x : float) :
  is_infinity x = true <-> exists s, Prim2SF x = S754_infinity s.
Proof.
  unfold is_infinity. rewrite FloatAxioms.eqb_spec, FloatAxioms.abs_spec, Prim2SF_infinity.
  unfold SFeqb.
  destruct (Prim2SF x) as [s|s| |s m e]; simpl; split;
    try discriminate; try (intros [s' [=]]); eauto.
Qed.

Lemma is_finite_iff (x : float) :
  is_finite x = true <-> SFis_finite (Prim2SF x).
Proof.
  unfold is_finite. rewrite negb_true_iff, orb_false_iff.
  split.
  - intros [Hn Hi]. apply is_nan_false_iff in Hn.
    destruct (Prim2SF x) as [s|s| |s m e] eqn:E; simpl; trivial.
    + assert (is_infinity x = true) by (apply is_infinity_iff; eauto).
      congruence.
    + congruence.
  - intros H. split.
    + apply is_nan_false_iff. intros E. now rewrite E in H.
    + destruct (is_infinity x) eqn:Hi; trivial.
      apply is_infinity_iff in Hi as [s E]. now rewrite E in H.
Qed.

(** [x == x] holds for everything but NaN. *)
Lemma eqb_refl_iff (x : float) : (x =? x) = true <-> is_nan x = false.
Proof. unfold is_nan. destruct (x =? x); simpl; split; congruence. Qed.

(** [>=] excludes [<], also at the infinities; [==] excludes [<]. *)
Lemma leb_not_ltb (x y : float) : (y <=? x) = true -> (x <? y) = false.
Proof.
  rewrite FloatAxioms.leb_spec, FloatAxioms.ltb_spec. unfold SFleb, SFltb.
  destruct (SFcompare (Prim2SF y) (Prim2SF x)) as [c|] eqn:E; try discriminate.
  apply SFcompare_antisym in E. rewrite E.
  destruct c; simpl; congruence.
Qed.

Lemma eqb_leb (x y : float) : (x =? y) = true -> (y <=? x) = true.
Proof.
  rewrite FloatAxioms.eqb_spec, FloatAxioms.leb_spec. unfold SFeqb, SFleb.
  destruct (SFcompare (Prim2SF x) (Prim2SF y)) as [c|] eqn:E; try discriminate.
  apply SFcompare_antisym in E. rewrite E.
  destruct c; simpl; congruence.
Qed.

(** On two values that are not NaN exactly one of [<] and [>=] holds. *)
Lemma ltb_negb_leb (x y : float) :
  is_nan x = false -> is_nan y = false -> (x <? y) = negb (y <=? x).
Proof.
  rewrite !is_nan_false_iff, FloatAxioms.leb_spec, FloatAxioms.ltb_spec. intros Hx Hy.
  unfold SFleb, SFltb.
  destruct (SFcompare_total _ _ Hx Hy) as [c E]. rewrite E.
  apply SFcompare_antisym in E. rewrite E. destruct c; reflexivity.
Qed.

Lemma is_finite_not_nan (x : float) : is_finite x = true -> is_nan x = false.
Proof.
  unfold is_finite. rewrite negb_true_iff, orb_false_iff. tauto.
Qed.

Lemma add_comm (x y : float) : x + y = y + x.
Proof.
  apply Prim2SF_inj. rewrite !FloatAxioms.add_spec. apply SFadd_comm.
Qed.

Lemma add_finite_not_nan (x y : float) :
  is_finite x = true -> is_finite y = true -> is_nan (x + y) = false.
Proof.
  rewrite !is_finite_iff, is_nan_false_iff, FloatAxioms.add_spec.
  apply SFadd_finite_not_nan.
Qed.

Lemma mul_finite_not_nan (x y : float) :
  is_finite x = true -> is_finite y = true -> is_nan (x * y) = false.
Proof.
  rewrite !is_finite_iff, is_nan_false_iff, FloatAxioms.mul_spec.
  apply SFmul_finite_not_nan.
Qed.

Lemma div_not_nan (x y : float) :
  is_nan x = false -> is_finite y = true -> (y =? 0) = false ->
  is_nan (x / y) = false.
Proof.
  rewrite is_finite_iff, !is_nan_false_iff, eqb_zero_false_iff, FloatAxioms.div_spec.
  apply SFdiv_not_nan.
Qed.

Lemma mul_zero_l (x y : float) :
  (x =? 0) = true -> is_finite y = true -> (x * y =? 0) = true.
Proof.
  rewrite !eqb_zero_iff, is_finite_iff, FloatAxioms.mul_spec. apply SFmul_zero_l.
Qed.

Lemma mul_zero_r (x y : float) :
  is_finite x = true -> (y =? 0) = true -> (x * y =? 0) = true.
Proof.
  rewrite !eqb_zero_iff, is_finite_iff, FloatAxioms.mul_spec. apply SFmul_zero_r.
Qed.

Lemma div_zero (x y : float) :
  (x =? 0) = true -> is_nan y = false -> (y =? 0) = false ->
  (x / y =? 0) = true.
Proof.
  rewrite !eqb_zero_iff, is_nan_false_iff, eqb_zero_false_iff, FloatAxioms.div_spec.
  apply SFdiv_zero.
Qed.

Lemma div_finite_not_nan (x y : float) :
  is_finite x = true -> is_nan y = false -> (y =? 0) = false ->
  is_nan (x / y) = false.
Proof.
  rewrite is_finite_iff, !is_nan_false_iff, eqb_zero_false_iff, FloatAxioms.div_spec.
  apply SFdiv_finite_not_nan.
Qed.

Lemma opp_finite (x : float) : is_finite x = true -> is_finite (- x) = true.
Proof.
  rewrite !is_finite_iff, FloatAxioms.opp_spec.
  destruct (Prim2SF x); simpl; trivial.
Qed.

Lemma nan_eqb (x y : float) : is_nan x = true -> (x =? y) = false.
Proof.
  rewrite is_nan_iff, FloatAxioms.eqb_spec. intros ->. apply SFeqb_nan_l.
Qed.

Lemma div_nan_l (x y : float) : is_nan x = true -> is_nan (x / y) = true.
Proof.
  rewrite !is_nan_iff, FloatAxioms.div_spec. intros ->. reflexivity.
Qed.

Lemma mul_zero_not_finite (x y : float) :
  (x =? 0) = true -> is_finite y = false -> is_nan (x * y) = true.
Proof.
  rewrite eqb_zero_iff, is_nan_iff, FloatAxioms.mul_spec. intros Hx Hy.
  apply SFmul_zero_not_finite; trivial.
  intros H. apply is_finite_iff in H. congruence.
Qed.

(** ** Equal floats *)

Lemma same_float_iff (x y : float) :
  same_float x y <-> SFsame (Prim2SF x) (Prim2SF y).
Proof.
  unfold same_float, SFsame. rewrite FloatAxioms.eqb_spec. split.
  - intros [->|H]; [now left|].
    apply SFeqb_inv in H as [H|[H _]]; [now right|now left].
  - intros [H|[Hx Hy]]; [left; now apply Prim2SF_inj|right].
    destruct (Prim2SF x), (Prim2SF y); try contradiction. reflexivity.
Qed.

Lemma same_float_refl (x : float) : same_float x x.
Proof. now left. Qed.

Lemma same_float_add (x x' y y' : float) :
  same_float x x' -> same_float y y' -> same_float (x + y) (x' + y').
Proof.
  rewrite !same_float_iff, !FloatAxioms.add_spec. apply SFadd_same.
Qed.

Lemma same_float_mul (x x' y y' : float) :
  same_float x x' -> same_float y y' -> same_float (x * y) (x' * y').
Proof.
  rewrite !same_float_iff, !FloatAxioms.mul_spec. apply SFmul_same.
Qed.

Lemma same_float_opp (x x' : float) :
  same_float x x' -> same_float (- x) (- x').
Proof.
  rewrite !same_float_iff, !FloatAxioms.opp_spec. apply SFopp_same.
Qed.

Lemma same_float_one_sub (x x' : float) :
  same_float x x' -> 1 - x = 1 - x'.
Proof.
  rewrite same_float_iff. intros H. apply Prim2SF_inj.
  rewrite !FloatAxioms.sub_spec. apply SFsub_same_r; trivial.
  rewrite Prim2SF_one. exact (fun F => F).
Qed.

Lemma same_float_ltb (x x' y y' : float) :
  same_float x x' -> same_float y y' -> (x <? y) = (x' <? y').
Proof.
  rewrite !same_float_iff, !FloatAxioms.ltb_spec. intros Hx Hy.
  unfold SFltb. now rewrite (SFcompare_same _ _ _ _ Hx Hy).
Qed.

Lemma same_float_is_zero (x x' : float) :
  same_float x x' -> (x =? 0) = (x' =? 0).
Proof.
  rewrite same_float_iff, !FloatAxioms.eqb_spec. intros Hx.
  unfold SFeqb.
  now rewrite (SFcompare_same _ _ _ _ Hx (or_introl (eq_refl (Prim2SF 0)))).
Qed.

(** Python's quotient respects equality: equal divisors are both zero, and
    both quotients raise, or are the same value. *)
Lemma same_float_div (x x' y y' : float) :
  same_float x x' -> same_float y y' ->
  same_outcome (float_div x y) (float_div x' y').
Proof.
  intros Hx Hy. unfold float_div.
  rewrite <- (same_float_is_zero _ _ Hy).
  destruct (y =? 0) eqn:Hz; simpl; [reflexivity|].
  assert (y = y') as <-.
  { apply same_float_iff in Hy as [E'|[Hy _]]; [now apply Prim2SF_inj|].
    apply eqb_zero_iff in Hy. congruence. }
  apply same_float_iff. rewrite !FloatAxioms.div_spec.
  apply SFdiv_same; [now apply same_float_iff|now apply eqb_zero_false_iff].
Qed.

(** [u ** 2] at a zero of either sign is [0.0], without the platform. *)
Lemma float_pow2_zero (libm_pow2 : float -> outcome float) (u : float) :
  (u =? 0) = true -> float_pow2 libm_pow2 u = Return 0.
Proof.
  intros Hz. unfold float_pow2. rewrite Hz.
  pose proof (proj1 (eqb_zero_iff u) Hz) as Z.
  assert (is_nan u = false) as ->
    by (apply is_nan_false_iff; intros E; now rewrite E in Z).
  destruct (is_infinity u) eqn:Hi; [|reflexivity].
  apply is_infinity_iff in Hi as [s E]. now rewrite E in Z.
Qed.

Lemma same_float_pow2 (libm_pow2 : float -> outcome float) (u u' : float) :
  same_float u u' -> float_pow2 libm_pow2 u = float_pow2 libm_pow2 u'.
Proof.
  intros H. apply same_float_iff in H as [E|[Z Z']].
  - now rewrite (Prim2SF_inj _ _ E).
  - apply eqb_zero_iff in Z, Z'. now rewrite !float_pow2_zero.
Qed.

(** ** The gate derivative on the unit interval *)

Lemma ltb_zero_divisor (y : float) :
  (0 <? y) = true ->
  SFpositive (Prim2SF y) /\ (y =? 0) = false /\ is_nan y = false.
Proof.
  rewrite FloatAxioms.ltb_spec, Prim2SF_zero. intros H.
  apply SFltb_zero_positive in H.
  destruct (SFpositive_not_zero _ H) as [Hn Hz].
  rewrite eqb_zero_false_iff, is_nan_false_iff. auto.
Qed.

Lemma unit_interval_sub (h : float) :
  (0 <=? h) = true -> (h <=? 1) = true -> weak_finite false (Prim2SF (1 - h)).
Proof.
  rewrite !FloatAxioms.leb_spec, Prim2SF_zero, Prim2SF_one, FloatAxioms.sub_spec.
  intros H0 H1. apply finite_signed_weak.
  apply SFsub_one_unit; trivial. apply Prim2SF_valid.
Qed.

Lemma unit_interval_opp (h : float) :
  (0 <=? h) = true -> (h <=? 1) = true -> weak_finite true (Prim2SF (- h)).
Proof.
  rewrite !FloatAxioms.leb_spec, Prim2SF_zero, Prim2SF_one, FloatAxioms.opp_spec.
  intros H0 H1. apply (SFopp_weak_finite false). now apply unit_interval_shape.
Qed.

Lemma eqb_one_inv (h : float) : (h =? 1) = true -> h = 1.
Proof.
  rewrite FloatAxioms.eqb_spec. intros H.
  apply SFeqb_inv in H as [[_ H]|[H _]]; [|now apply Prim2SF_inj].
  rewrite Prim2SF_one in H. contradiction.
Qed.

Lemma opp_zero (h : float) : (h =? 0) = true -> (- h =? 0) = true.
Proof.
  rewrite !eqb_zero_iff, FloatAxioms.opp_spec.
  destruct (Prim2SF h); simpl; trivial.
Qed.

(** ** Quotients that do not underflow *)

Lemma Prim2SF_pow2_1022 :
  Prim2SF 0x1p+1022 = S754_finite false one_mantissa 970.
Proof. reflexivity. Qed.

Lemma Prim2SF_pow2_53 : Prim2SF 0x1p+53 = S754_finite false one_mantissa 1.
Proof. reflexivity. Qed.

Lemma Prim2SF_two : Prim2SF 2 = S754_finite false one_mantissa (-51).
Proof. reflexivity. Qed.

Lemma Prim2SF_min_normal :
  Prim2SF 0x1p-1022 = S754_finite false one_mantissa (-1074).
Proof. reflexivity. Qed.

Lemma quotient_positive (x y : float) (Bx By : Z) :
  weak_finite false (Prim2SF x) -> SFmagnitude_ge Bx (Prim2SF x) ->
  SFpositive (Prim2SF y) -> SFmagnitude_le By (Prim2SF y) ->
  (-1074 <= Bx - By)%Z ->
  (0 <? x / y) = true.
Proof.
  intros Wx Gx Py Ly HB.
  rewrite FloatAxioms.ltb_spec, Prim2SF_zero, FloatAxioms.div_spec.
  apply (weak_signed_positive _ (-1073)).
  - now apply SFdiv_positive_weak.
  - apply (SFdiv_nonzero _ _ Bx By); trivial.
    destruct (Prim2SF x); simpl in *; trivial.
Qed.

Lemma quotient_negative (x y : float) (Bx By : Z) :
  weak_finite true (Prim2SF x) -> SFmagnitude_ge Bx (Prim2SF x) ->
  SFpositive (Prim2SF y) -> SFmagnitude_le By (Prim2SF y) ->
  (-1074 <= Bx - By)%Z ->
  (x / y <? 0) = true.
Proof.
  intros Wx Gx Py Ly HB.
  rewrite FloatAxioms.ltb_spec, Prim2SF_zero, FloatAxioms.div_spec.
  apply (weak_signed_negative _ (-1073)).
  - now apply SFdiv_positive_weak.
  - apply (SFdiv_nonzero _ _ Bx By); trivial.
    destruct (Prim2SF x); simpl in *; trivial.
Qed.

Lemma finite_divisor_magnitude (y : float) :
  is_finite y = true -> SFmagnitude_le 1024 (Prim2SF y).
Proof.
  rewrite is_finite_iff. apply finite_magnitude, Prim2SF_valid.
Qed.

Lemma below_pow2_divisor (y p2 : float) (e1 : Z) :
  Prim2SF p2 = S754_finite false one_mantissa e1 ->
  (0 <? y) = true -> (y <? p2) = true ->
  SFmagnitude_le (e1 + 52) (Prim2SF y).
Proof.
  intros E Hp Hlt. destruct (ltb_zero_divisor _ Hp) as (P & _ & _).
  rewrite FloatAxioms.ltb_spec, E in Hlt.
  apply below_pow2_magnitude; trivial. apply Prim2SF_valid.
Qed.

Lemma positive_magnitude_ge (h : float) :
  (0 <? h) = true -> SFmagnitude_ge (-1073) (Prim2SF h).
Proof.
  intros Hp. destruct (ltb_zero_divisor _ Hp) as (P & _ & _).
  apply positive_magnitude; trivial. apply Prim2SF_valid.
Qed.

(** For [0 <= h <= 1] other than [1.0], [1.0 - h] is at least [2 ^ -53]. *)
Lemma unit_interval_sub_ge (h : float) :
  (0 <=? h) = true -> (h <=? 1) = true -> (h =? 1) = false ->
  SFmagnitude_ge (-52) (Prim2SF (1 - h)).
Proof.
  rewrite !FloatAxioms.leb_spec, FloatAxioms.eqb_spec, Prim2SF_zero,
    Prim2SF_one, FloatAxioms.sub_spec, Prim2SF_one.
  intros H0 H1 Hne. apply SFsub_one_below; trivial. apply Prim2SF_valid.
Qed.

(** ** Signs and symmetries of the float operations *)

Lemma ltb_nan (x y : float) :
  is_nan x = true \/ is_nan y = true -> (x <? y) = false.
Proof.
  rewrite !is_nan_iff, FloatAxioms.ltb_spec. unfold SFltb.
  intros [->| ->]; [reflexivity|now rewrite SFcompare_nan_r].
Qed.

Lemma nonneg_finite_shape (u : float) :
  is_finite u = true -> (0 <=? u) = true -> weak_finite false (Prim2SF u).
Proof.
  rewrite is_finite_iff, FloatAxioms.leb_spec, Prim2SF_zero.
  destruct (Prim2SF u) as [s|s| |[] m e]; simpl; trivial; discriminate.
Qed.

Lemma nonpos_finite_shape (u : float) :
  is_finite u = true -> (u <=? 0) = true -> weak_finite true (Prim2SF u).
Proof.
  rewrite is_finite_iff, FloatAxioms.leb_spec, Prim2SF_zero.
  destruct (Prim2SF u) as [s|s| |[] m e]; simpl; trivial; discriminate.
Qed.

Lemma positive_finite_divisor (y : float) :
  is_finite y = true -> (0 <? y) = true ->
  SFis_finite (Prim2SF y) /\ SFpositive (Prim2SF y) /\ (y =? 0) = false.
Proof.
  intros Hf Hp. destruct (ltb_zero_divisor _ Hp) as (P & Z & _).
  apply is_finite_iff in Hf. auto.
Qed.

Lemma add_zero_zero (x y : float) :
  (x =? 0) = true -> (y =? 0) = true -> (x + y =? 0) = true.
Proof.
  rewrite !eqb_zero_iff, FloatAxioms.add_spec.
  destruct (Prim2SF x) as [[]| | |], (Prim2SF y) as [[]| | |];
    simpl; trivial; contradiction.
Qed.

Lemma add_opp (x : float) : is_finite x = true -> x + - x = 0.
Proof.
  rewrite is_finite_iff. intros H. apply Prim2SF_inj.
  rewrite FloatAxioms.add_spec, FloatAxioms.opp_spec, Prim2SF_zero.
  now apply SFadd_opp.
Qed.

Lemma div_opp_l (x y : float) : - x / y = - (x / y).
Proof.
  apply Prim2SF_inj.
  rewrite FloatAxioms.div_spec, !FloatAxioms.opp_spec, FloatAxioms.div_spec.
  apply SFdiv_opp_l.
Qed.

Lemma mul_opp_l (x y : float) : - x * y = - (x * y).
Proof.
  apply Prim2SF_inj.
  rewrite FloatAxioms.mul_spec, !FloatAxioms.opp_spec, FloatAxioms.mul_spec.
  apply SFmul_opp_l.
Qed.

(** ** The inward current on the unit interval *)

(** With [u] in the unit interval and a square [u2] below [2 ^ 4], [C] is
    finite and the quotient [h * C / tau_in] is returned and is not
    negative, for finite [h >= 0] and finite [tau_in > 0]. *)
Lemma J_in_quotient_nonneg (u u2 h tau_in : float) :
  weak_finite false (Prim2SF u2) -> SFmagnitude_le 4 (Prim2SF u2) ->
  (0 <=? u) = true -> (u <=? 1) = true ->
  is_finite h = true -> (0 <=? h) = true ->
  is_finite tau_in = true -> (0 <? tau_in) = true ->
  is_finite (u2 * (1 - u)) = true /\
  (tau_in =? 0) = false /\
  (0 <=? h * (u2 * (1 - u)) / tau_in) = true.
Proof.
  intros W2 M2 U0 U1 Hf Hh Tf Tp.
  destruct (positive_finite_divisor _ Tf Tp) as (TF & TP & TZ).
  pose proof (nonneg_finite_shape _ Hf Hh) as Wh.
  pose proof (unit_interval_sub _ U0 U1) as Ws.
  assert (Ms : SFmagnitude_le 2 (Prim2SF (1 - u))).
  { rewrite FloatAxioms.sub_spec, Prim2SF_one.
    rewrite !FloatAxioms.leb_spec, Prim2SF_zero, Prim2SF_one in *.
    apply SFsub_one_unit_magnitude; trivial. apply Prim2SF_valid. }
  destruct (SFmul_magnitude false false _ _ 4 2 W2 Ws M2 Ms) as [WC _]; try lia.
  rewrite <- FloatAxioms.mul_spec in WC. simpl xorb in WC.
  repeat split; trivial.
  - apply is_finite_iff. destruct (Prim2SF (u2 * (1 - u))); simpl in *; trivial.
  - rewrite FloatAxioms.leb_spec, Prim2SF_zero, FloatAxioms.div_spec.
    apply weak_signed_nonneg, SFdiv_weak_pos; trivial.
    rewrite FloatAxioms.mul_spec. now apply (SFmul_weak false false).
Qed.

Lemma unit_interval_square_bound (u2 : float) :
  (0 <=? u2) = true -> (u2 <=? 1) = true ->
  weak_finite false (Prim2SF u2) /\ SFmagnitude_le 4 (Prim2SF u2).
Proof.
  rewrite !FloatAxioms.leb_spec, Prim2SF_zero, Prim2SF_one. intros H0 H1.
  split; [now apply unit_interval_shape|].
  pose proof (unit_interval_magnitude _ (Prim2SF_valid u2) H0 H1) as M.
  destruct (Prim2SF u2); simpl in *; trivial. lia.
Qed.

(** ** Negation and equality of results *)

Lemma is_nan_opp (x : float) : is_nan (- x) = is_nan x.
Proof.
  destruct (is_nan x) eqn:E.
  - apply is_nan_iff. apply is_nan_iff in E.
    now rewrite FloatAxioms.opp_spec, E.
  - apply is_nan_false_iff. apply is_nan_false_iff in E.
    rewrite FloatAxioms.opp_spec. now destruct (Prim2SF x).
Qed.

Lemma negation_of_opp (x : float) : negation_of x (- x).
Proof.
  unfold negation_of. destruct (is_nan x) eqn:E; [|reflexivity].
  now rewrite is_nan_opp.
Qed.

Lemma same_float_eq_or_nan (x y : float) : same_float x y -> eq_or_nan x y.
Proof.
  intros [<-|H]; [|now left].
  destruct (is_nan x) eqn:E; [now right|left]. now apply eqb_refl_iff.
Qed.

Lemma same_outcome_agree (a b : outcome float) : same_outcome a b -> agree a b.
Proof.
  destruct a, b; simpl; trivial. apply same_float_eq_or_nan.
Qed.

End Bridge.

(** ** Allocation in the heap *)

Section Heap.
Implicit Types (s : heap) (d : dict) (l : positive).

Lemma alloc_fresh d s : s !! (alloc d s).1 = None.
Proof. apply not_elem_of_dom, is_fresh. Qed.

Lemma alloc_lookup d s : (alloc d s).2 !! (alloc d s).1 = Some d.
Proof. apply lookup_insert_eq. Qed.

(** Allocation leaves every object of the heap as it was. *)
Lemma alloc_frame d s l x : s !! l = Some x -> (alloc d s).2 !! l = Some x.
Proof.
  intros H. unfold alloc. simpl. rewrite lookup_insert_ne; [exact H|].
  intros E. pose proof (alloc_fresh d s) as F. unfold alloc in F. simpl in F.
  rewrite E in F. congruence.
Qed.

(** Two objects allocated one after the other are distinct, and changing
    either in place leaves the other as it was. *)
Lemma alloc_twice d d' s :
  let r1 := alloc d s in
  let r2 := alloc d' r1.2 in
  r1.1 <> r2.1 /\
  r2.2 !! r1.1 = Some d /\ r2.2 !! r2.1 = Some d' /\
  forall f : dict -> dict,
    mutate r1.1 f r2.2 !! r1.1 = Some (f d) /\
    mutate r1.1 f r2.2 !! r2.1 = Some d' /\
    mutate r2.1 f r2.2 !! r1.1 = Some d /\
    mutate r2.1 f r2.2 !! r2.1 = Some (f d').
Proof.
  intros r1 r2.
  pose proof (alloc_lookup d s) as L1. fold r1 in L1.
  pose proof (alloc_lookup d' r1.2) as L2. fold r2 in L2.
  pose proof (alloc_fresh d' r1.2) as F2. fold r2 in F2.
  assert (N : r1.1 <> r2.1) by (intros E; rewrite E in L1; congruence).
  pose proof (alloc_frame d' r1.2 _ _ L1) as K. fold r2 in K.
  repeat split; trivial; intros; unfold mutate.
  - now rewrite lookup_alter_eq, K.
  - now rewrite lookup_alter_ne.
  - now rewrite lookup_alter_ne.
  - now rewrite lookup_alter_eq, L2.
Qed.

End Heap.

(** * The properties of the specification *)

Section Claims.
#[local] Open Scope float_scope.

(** C1. For finite [u] and [u_gate] (and every [h], [tau_open],
    [tau_close]) [calc_dh] returns [(1 - h) / tau_open] when [u < u_gate]
    and [-h / tau_close] when [u >= u_gate]; the boundary [u == u_gate]
    takes the decay branch, and one of the two cases always applies.  The
    quotients are Python's: a zero divisor raises. *)
Theorem calc_dh_branches (h u tau_close tau_open u_gate : float) :
  is_finite u = true -> is_finite u_gate = true ->
  ((u <? u_gate) = true ->
     calc_dh h u tau_close tau_open u_gate = float_div (1 - h) tau_open) /\
  ((u_gate <=? u) = true ->
     calc_dh h u tau_close tau_open u_gate = float_div (- h) tau_close) /\
  ((u =? u_gate) = true ->
     calc_dh h u tau_close tau_open u_gate = float_div (- h) tau_close) /\
  (u <? u_gate) = negb (u_gate <=? u).
Proof.
  intros Hu Hg. unfold calc_dh. repeat split.
  - intros ->. reflexivity.
  - intros H. now rewrite (leb_not_ltb _ _ H).
  - intros H. now rewrite (leb_not_ltb _ _ (eqb_leb _ _ H)).
  - apply ltb_negb_leb; now apply is_finite_not_nan.
Qed.

(** The scenario of the specification: [u = 0.2 >= u_gate = 0.13] decays. *)
Lemma calc_dh_branches_witness :
  calc_dh 0.5 0.2 150 120 0.13 = float_div (- 0.5) 150.
Proof.
  exact (proj1 (proj2 (calc_dh_branches 0.5 0.2 150 120 0.13 eq_refl eq_refl))
           eq_refl).
Defined.

(** C3. For finite [u] and every [tau_out], [calc_J_out u tau_out] is
    [-u / tau_out]: Python's quotient, which raises on a zero divisor and
    is the IEEE quotient otherwise; when [tau_out] is also not NaN the
    comparison [calc_J_out(u, tau_out) == -u / tau_out] is [True]. *)
Theorem calc_J_out_formula (u tau_out : float) :
  is_finite u = true ->
  calc_J_out u tau_out = float_div (- u) tau_out /\
  ((tau_out =? 0) = true -> calc_J_out u tau_out = Raise ZeroDivisionError) /\
  ((tau_out =? 0) = false -> calc_J_out u tau_out = Return (- u / tau_out)) /\
  ((tau_out =? 0) = false -> is_nan tau_out = false ->
     float_eq (calc_J_out u tau_out) (Return (- u / tau_out)) = Return true).
Proof.
  intros Hu. unfold calc_J_out, float_div. repeat split.
  - intros ->. reflexivity.
  - intros ->. reflexivity.
  - intros Hz Hn. rewrite Hz. simpl. f_equal.
    apply eqb_refl_iff, div_finite_not_nan; auto using opp_finite.
Qed.

Lemma calc_J_out_formula_witness :
  float_eq (calc_J_out 0.5 6) (Return (- 0.5 / 6)) = Return true.
Proof.
  exact (proj2 (proj2 (proj2 (calc_J_out_formula 0.5 6 eq_refl))) eq_refl eq_refl).
Defined.

(** C4. For finite [J_in] and [J_out], [calc_rhs J_in J_out] is
    [J_in + J_out] and does not depend on the order of its arguments, both
    as values and under Python's [==]. *)
Theorem calc_rhs_sum_comm (J_in J_out : float) :
  is_finite J_in = true -> is_finite J_out = true ->
  calc_rhs J_in J_out = J_in + J_out /\
  calc_rhs J_in J_out = calc_rhs J_out J_in /\
  (calc_rhs J_in J_out =? J_in + J_out) = true /\
  (calc_rhs J_in J_out =? calc_rhs J_out J_in) = true.
Proof.
  intros Hi Ho. unfold calc_rhs.
  pose proof (add_finite_not_nan _ _ Hi Ho) as Hn.
  apply eqb_refl_iff in Hn.
  repeat split; trivial; try apply add_comm.
  now rewrite (add_comm J_out J_in).
Qed.

Lemma calc_rhs_sum_comm_witness :
  calc_rhs 0.5 (- 0.25) = calc_rhs (- 0.25) 0.5.
Proof.
  exact (proj1 (proj2 (calc_rhs_sum_comm 0.5 (- 0.25) eq_refl eq_refl))).
Defined.

(** C5. A zero time constant is not guarded, validated or clamped: the
    division is attempted and Python's [ZeroDivisionError] leaves the function
    ([calc_J_out], [calc_J_in] once [u ** 2] has been computed, and [calc_dh]
    on the branch that divides by the constant); no float is returned in its
    place.  A zero constant of the branch not taken is never looked at. *)
Theorem zero_time_constant_raises (libm_pow2 : float -> outcome float)
    (tau h u u_gate tau' : float) :
  (tau =? 0) = true ->
  calc_J_out u tau = Raise ZeroDivisionError /\
  calc_J_in libm_pow2 u h tau
    = bind (float_pow2 libm_pow2 u) (fun _ => Raise ZeroDivisionError) /\
  raises (calc_J_in libm_pow2 u h tau) = true /\
  ((u <? u_gate) = true ->
     calc_dh h u tau' tau u_gate = Raise ZeroDivisionError) /\
  ((u <? u_gate) = false ->
     calc_dh h u tau tau' u_gate = Raise ZeroDivisionError) /\
  ((u <? u_gate) = true -> (tau' =? 0) = false ->
     calc_dh h u tau tau' u_gate = Return ((1 - h) / tau')) /\
  ((u <? u_gate) = false -> (tau' =? 0) = false ->
     calc_dh h u tau' tau u_gate = Return (- h / tau')).
Proof.
  intros Hz. unfold calc_J_out, calc_J_in, calc_dh, float_div. rewrite Hz.
  repeat split.
  - destruct (float_pow2 libm_pow2 u); reflexivity.
  - intros ->. reflexivity.
  - intros ->. reflexivity.
  - intros -> ->. reflexivity.
  - intros -> ->. reflexivity.
Qed.

(** Both zeros raise: [tau_out = -0.0]. *)
Lemma zero_time_constant_raises_witness :
  calc_J_out 1 (- 0) = Raise ZeroDivisionError.
Proof.
  exact (proj1 (zero_time_constant_raises pow2_rn (- 0) 1 1 1 1 eq_refl)).
Defined.

(** C6. The default resting state is a fixed point: with [u = 0.0],
    [h = 1.0] and the default parameters, as the accessors give them, both
    currents, their sum and the gate derivative compare equal to [0.0], on
    every platform; the gate takes the recovery branch since [0.0 < 0.13]. *)
Theorem default_state_fixed_point (libm_pow2 : float -> outcome float) :
  default_variables !! "u" = Some 0 /\
  default_variables !! "h" = Some 1 /\
  default_parameters !! "tau_close" = Some 150 /\
  default_parameters !! "tau_open" = Some 120 /\
  default_parameters !! "tau_out" = Some 6 /\
  default_parameters !! "tau_in" = Some 0.3 /\
  default_parameters !! "u_gate" = Some 0.13 /\
  float_eq (calc_J_in libm_pow2 0 1 0.3) (Return 0) = Return true /\
  float_eq (calc_J_out 0 6) (Return 0) = Return true /\
  (calc_rhs 0 0 =? 0) = true /\
  (let* J_in := calc_J_in libm_pow2 0 1 0.3 in
   let* J_out := calc_J_out 0 6 in
   Return (calc_rhs J_in J_out =? 0)) = Return true /\
  (0 <? 0.13) = true /\
  calc_dh 1 0 150 120 0.13 = float_div (1 - 1) 120 /\
  float_eq (calc_dh 1 0 150 120 0.13) (Return 0) = Return true.
Proof.
  repeat split.
Qed.

(** C2, as the code has it.  On every platform and for all [u], [h],
    [tau_in], [calc_J_in] has the outcome of the formula
    [h * C / tau_in] with [C = u^2 * (1 - u)]: the same float or the same
    raised exception.  The direct comparison [==] of a returned value with
    the formula is [True] exactly when that value is not NaN; it is [True]
    for finite [h], finite non-zero [tau_in] and finite [C]. *)
Theorem calc_J_in_formula (libm_pow2 : float -> outcome float)
    (u h tau_in : float) :
  calc_J_in libm_pow2 u h tau_in = J_in_formula libm_pow2 u h tau_in /\
  (forall r, calc_J_in libm_pow2 u h tau_in = Return r ->
     float_eq (calc_J_in libm_pow2 u h tau_in) (J_in_formula libm_pow2 u h tau_in)
       = Return (negb (is_nan r))) /\
  (forall u2, float_pow2 libm_pow2 u = Return u2 ->
     is_finite h = true -> is_finite (u2 * (1 - u)) = true ->
     is_finite tau_in = true -> (tau_in =? 0) = false ->
     float_eq (calc_J_in libm_pow2 u h tau_in) (J_in_formula libm_pow2 u h tau_in)
       = Return true).
Proof.
  assert (E : calc_J_in libm_pow2 u h tau_in = J_in_formula libm_pow2 u h tau_in)
    by reflexivity.
  split; [exact E|]. rewrite <- E. split.
  - intros r ->. simpl. unfold is_nan. now rewrite negb_involutive.
  - intros u2 Hp Hh HC Ht Hz. unfold calc_J_in, float_div.
    rewrite Hp. simpl. rewrite Hz. simpl. f_equal.
    apply eqb_refl_iff, div_not_nan; trivial.
    now apply mul_finite_not_nan.
Qed.

(** C2 fails as stated: for the finite inputs [u = 1e103], [h = 0.0],
    [tau_in = 0.3] the product [C] overflows to an infinity, [0.0 * C] is
    NaN, and NaN does not compare equal to itself. *)
Lemma calc_J_in_formula_nan_counterexample :
  is_finite 1e103 = true /\ is_finite 0 = true /\
  is_finite 0.3 = true /\ (0 <? 0.3) = true /\
  calc_J_in pow2_rn 1e103 0 0.3 = Return nan /\
  float_eq (calc_J_in pow2_rn 1e103 0 0.3) (J_in_formula pow2_rn 1e103 0 0.3)
    = Return false.
Proof. repeat split. Qed.

(** C9, as the code has it.  For finite [h] and a [tau_in] that is neither
    zero nor NaN the inward current compares equal to [0.0] at [u = 0.0]
    and at [u = 1.0], on every platform.  With the gate closed ([h = 0.0])
    it does so exactly when [u ** 2] returns and [C = u^2 * (1 - u)] is
    finite. *)
Theorem calc_J_in_roots (libm_pow2 : float -> outcome float)
    (h tau_in : float) :
  is_finite h = true -> (tau_in =? 0) = false -> is_nan tau_in = false ->
  float_eq (calc_J_in libm_pow2 0 h tau_in) (Return 0) = Return true /\
  float_eq (calc_J_in libm_pow2 1 h tau_in) (Return 0) = Return true /\
  (forall u,
     float_eq (calc_J_in libm_pow2 u 0 tau_in) (Return 0) = Return true <->
     exists u2, float_pow2 libm_pow2 u = Return u2 /\
                is_finite (u2 * (1 - u)) = true).
Proof.
  intros Hh Hz Hn.
  assert (R : forall x, (x =? 0) = true ->
            float_eq (float_div x tau_in) (Return 0) = Return true).
  { intros x Hx. unfold float_div. rewrite Hz. simpl. f_equal.
    now apply div_zero. }
  repeat split.
  - change (calc_J_in libm_pow2 0 h tau_in) with (float_div (h * 0) tau_in).
    apply R. now apply mul_zero_r.
  - change (calc_J_in libm_pow2 1 h tau_in) with (float_div (h * 0) tau_in).
    apply R. now apply mul_zero_r.
  - unfold calc_J_in. destruct (float_pow2 libm_pow2 u) as [u2|e]; [|discriminate].
    simpl. intros H. exists u2. split; [reflexivity|].
    destruct (is_finite (u2 * (1 - u))) eqn:HC; [reflexivity|].
    unfold float_div in H. rewrite Hz in H. simpl in H.
    rewrite nan_eqb in H; [discriminate|].
    apply div_nan_l. now apply mul_zero_not_finite.
  - intros (u2 & Hp & HC). unfold calc_J_in. rewrite Hp. simpl.
    apply R. now apply mul_zero_l.
Qed.

Lemma calc_J_in_roots_witness :
  float_eq (calc_J_in pow2_rn 1 1 0.3) (Return 0%float) = Return true.
Proof.
  exact (proj1 (proj2 (calc_J_in_roots pow2_rn 1 0.3 eq_refl eq_refl eq_refl))).
Defined.

(** C9 fails as stated.  With the gate closed and the finite [u = 1e103],
    [C] overflows and the current is NaN; at the finite [u = 1e200] the
    square itself overflows and [**] raises; and a NaN [tau_in], which is
    [!= 0], gives NaN at the root [u = 0.0]. *)
Lemma calc_J_in_roots_counterexample :
  is_finite 1e103 = true /\ (0.3 =? 0) = false /\
  calc_J_in pow2_rn 1e103 0 0.3 = Return nan /\
  float_eq (calc_J_in pow2_rn 1e103 0 0.3) (Return 0) = Return false /\
  is_finite 1e200 = true /\
  calc_J_in pow2_rn 1e200 0 0.3 = Raise OverflowError /\
  is_finite 1 = true /\ negb (nan =? 0) = true /\
  float_eq (calc_J_in pow2_rn 0 1 nan) (Return 0) = Return false.
Proof. repeat split. Qed.

(** C7. [get_variables] returns a mapping with exactly the keys [u], [h]
    and the values [0.0], [1.0]; [get_parameters] one with exactly the five
    keys [tau_close], [tau_open], [tau_out], [tau_in], [u_gate] and the
    values [150.0], [120.0], [6.0], [0.3], [0.13].  Every call builds a new
    object: the objects of two calls are distinct, whatever is done to one
    in place leaves the other as it was, and a later call still returns the
    defaults. *)
Theorem accessors_fresh_defaults (s : heap) (f : dict -> dict) :
  (dom default_variables = {[ "u"; "h" ]} /\
   default_variables !! "u" = Some 0 /\ default_variables !! "h" = Some 1) /\
  (dom default_parameters
     = {[ "tau_close"; "tau_open"; "tau_out"; "tau_in"; "u_gate" ]} /\
   default_parameters !! "tau_close" = Some 150 /\
   default_parameters !! "tau_open" = Some 120 /\
   default_parameters !! "tau_out" = Some 6 /\
   default_parameters !! "tau_in" = Some 0.3 /\
   default_parameters !! "u_gate" = Some 0.13) /\
  (let v1 := get_variables s in
   let v2 := get_variables v1.2 in
   let v3 := get_variables (mutate v1.1 f v2.2) in
   v1.2 !! v1.1 = Some default_variables /\
   v2.2 !! v2.1 = Some default_variables /\
   v1.1 <> v2.1 /\
   mutate v1.1 f v2.2 !! v1.1 = Some (f default_variables) /\
   mutate v1.1 f v2.2 !! v2.1 = Some default_variables /\
   mutate v2.1 f v2.2 !! v1.1 = Some default_variables /\
   v3.2 !! v3.1 = Some default_variables) /\
  (let p1 := get_parameters s in
   let p2 := get_parameters p1.2 in
   let p3 := get_parameters (mutate p1.1 f p2.2) in
   p1.2 !! p1.1 = Some default_parameters /\
   p2.2 !! p2.1 = Some default_parameters /\
   p1.1 <> p2.1 /\
   mutate p1.1 f p2.2 !! p1.1 = Some (f default_parameters) /\
   mutate p1.1 f p2.2 !! p2.1 = Some default_parameters /\
   mutate p2.1 f p2.2 !! p1.1 = Some default_parameters /\
   p3.2 !! p3.1 = Some default_parameters).
Proof.
  split; [|split; [|split]].
  - split; [|split; reflexivity].
    unfold default_variables. rewrite dom_insert_L, dom_singleton_L. set_solver.
  - split; [|repeat split].
    unfold default_parameters. rewrite !dom_insert_L, dom_singleton_L. set_solver.
  - cbv zeta. unfold get_variables.
    destruct (alloc_twice default_variables default_variables s)
      as (N & K1 & K2 & M).
    destruct (M f) as (M1 & M2 & M3 & _).
    repeat split; trivial; apply alloc_lookup.
  - cbv zeta. unfold get_parameters.
    destruct (alloc_twice default_parameters default_parameters s)
      as (N & K1 & K2 & M).
    destruct (M f) as (M1 & M2 & M3 & _).
    repeat split; trivial; apply alloc_lookup.
Qed.

(** C10, as the code has it.  For [0 <= h <= 1] and positive time constants
    [calc_dh] returns a derivative that is [>= 0] when [u < u_gate] and one
    that is [<= 0] when [u >= u_gate]: it never points out of the unit
    interval.  On the recovery branch it is [0] at [h = 1], and only there
    when [tau_open < 2 ^ 1022]; at [h = 0] it is [> 0] for every finite
    [tau_open].  On the decay branch it is [0] at [h = 0]; it is [< 0] for
    every [h >= 2 ^ -1022] when [tau_close < 2 ^ 53], for every [h > 0]
    when [tau_close < 2], and at [h = 1] for every finite [tau_close].
    (Each bound is the first value at which the quotient can underflow to
    a zero.) *)
Theorem calc_dh_points_inward (h u tau_close tau_open u_gate : float) :
  (0 <=? h) = true -> (h <=? 1) = true ->
  (0 <? tau_open) = true -> (0 <? tau_close) = true ->
  ((u <? u_gate) = true ->
     exists d, calc_dh h u tau_close tau_open u_gate = Return d /\
               (0 <=? d) = true /\
               ((h =? 1) = true -> (d =? 0) = true) /\
               ((h =? 1) = false -> (tau_open <? 0x1p+1022) = true ->
                (0 <? d) = true) /\
               ((h =? 0) = true -> is_finite tau_open = true ->
                (0 <? d) = true)) /\
  ((u_gate <=? u) = true ->
     exists d, calc_dh h u tau_close tau_open u_gate = Return d /\
               (d <=? 0) = true /\
               ((h =? 0) = true -> (d =? 0) = true) /\
               ((0x1p-1022 <=? h) = true -> (tau_close <? 0x1p+53) = true ->
                (d <? 0) = true) /\
               ((0 <? h) = true -> (tau_close <? 2) = true ->
                (d <? 0) = true) /\
               ((h =? 1) = true -> is_finite tau_close = true ->
                (d <? 0) = true)).
Proof.
  intros H0 H1 Ho Hc.
  destruct (ltb_zero_divisor _ Ho) as (Po & Zo & No).
  destruct (ltb_zero_divisor _ Hc) as (Pc & Zc & Nc).
  unfold calc_dh, float_div. split.
  - intros ->. rewrite Zo. eexists. split; [reflexivity|].
    pose proof (unit_interval_sub _ H0 H1) as Ws.
    split; [|split; [|split]].
    + rewrite FloatAxioms.leb_spec, Prim2SF_zero, FloatAxioms.div_spec.
      now apply weak_signed_nonneg, SFdiv_positive_weak.
    + intros E. apply eqb_one_inv in E. subst h.
      apply div_zero; trivial.
    + intros Hne Hlt.
      apply (quotient_positive _ _ (-52) (970 + 52)); trivial;
        [now apply unit_interval_sub_ge| |lia].
      now apply (below_pow2_divisor _ _ _ Prim2SF_pow2_1022).
    + intros Hz Hf.
      rewrite (same_float_one_sub h 0 (or_intror Hz)).
      apply (quotient_positive _ _ 1 1024); trivial;
        [exact eq_refl|now vm_compute|now apply finite_divisor_magnitude|lia].
  - intros Hge. rewrite (leb_not_ltb _ _ Hge), Zc.
    eexists. split; [reflexivity|].
    pose proof (unit_interval_opp _ H0 H1) as Wn.
    split; [|split; [|split; [|split]]].
    + rewrite FloatAxioms.leb_spec, Prim2SF_zero, FloatAxioms.div_spec.
      now apply weak_signed_nonpos, SFdiv_positive_weak.
    + intros E. apply div_zero; trivial. now apply opp_zero.
    + intros Hn Hlt.
      apply (quotient_negative _ _ (-1074 + 53) (1 + 52)); trivial; [| |lia].
      * rewrite FloatAxioms.opp_spec. apply SFopp_magnitude_ge.
        rewrite FloatAxioms.leb_spec, Prim2SF_min_normal in Hn.
        apply above_pow2_magnitude; trivial; [apply Prim2SF_valid|lia].
      * now apply (below_pow2_divisor _ _ _ Prim2SF_pow2_53).
    + intros Hp Hlt.
      apply (quotient_negative _ _ (-1073) (-51 + 52)); trivial; [| |lia].
      * rewrite FloatAxioms.opp_spec.
        now apply SFopp_magnitude_ge, positive_magnitude_ge.
      * now apply (below_pow2_divisor _ _ _ Prim2SF_two).
    + intros E Hf. apply eqb_one_inv in E. subst h.
      apply (quotient_negative _ _ 1 1024); trivial;
        [now vm_compute|now apply finite_divisor_magnitude|lia].
Qed.

(** The scenario of the specification: [h = 0.5], [u = 0.2 >= 0.13]. *)
Lemma calc_dh_points_inward_witness :
  exists d, calc_dh 0.5 0.2 150 120 0.13 = Return d /\
            (d <=? 0) = true /\
            ((0.5 =? 0) = true -> (d =? 0) = true) /\
            ((0x1p-1022 <=? 0.5) = true -> (150 <? 0x1p+53) = true ->
             (d <? 0) = true) /\
            ((0 <? 0.5) = true -> (150 <? 2) = true -> (d <? 0) = true) /\
            ((0.5 =? 1) = true -> is_finite 150 = true -> (d <? 0) = true).
Proof.
  exact (proj2 (calc_dh_points_inward 0.5 0.2 150 120 0.13
                  eq_refl eq_refl eq_refl eq_refl) eq_refl).
Defined.

(** C10 fails as stated: the derivative is also [0] away from the end
    points, where the quotient underflows.  With the default parameters and
    the smallest positive float [h = 5e-324], [-h / 150.0] rounds to [-0.0];
    with [h] the float below [1.0] and [tau_open] the largest float,
    [(1.0 - h) / tau_open] rounds to [0.0]. *)
Lemma calc_dh_zero_inside_counterexample :
  ((0 <=? 5e-324) = true /\ (5e-324 <=? 1) = true /\
   (0 <? 120) = true /\ (0 <? 150) = true /\ (0.13 <=? 0.2) = true /\
   calc_dh 5e-324 0.2 150 120 0.13 = Return (- 0) /\
   (- 0 =? 0) = true /\ (5e-324 =? 0) = false) /\
  ((0 <=? 0x1.fffffffffffffp-1) = true /\ (0x1.fffffffffffffp-1 <=? 1) = true /\
   (0 <? 0x1.fffffffffffffp+1023) = true /\ (0 <? 150) = true /\
   (0 <? 0.13) = true /\
   calc_dh 0x1.fffffffffffffp-1 0 150 0x1.fffffffffffffp+1023 0.13 = Return 0 /\
   (0 =? 0) = true /\ (0x1.fffffffffffffp-1 =? 1) = false).
Proof. repeat split. Qed.

End Claims.

(** * Further properties of the equations *)

Section Further.
#[local] Open Scope float_scope.

(** X1. A NaN membrane potential or a NaN threshold takes the decay branch
    of [calc_dh]: [u < u_gate] is [False] when either side is NaN, so the
    derivative is [-h / tau_close] whatever [tau_open] is. *)
Theorem calc_dh_nan_decays (h u tau_close tau_open u_gate : float) :
  is_nan u = true \/ is_nan u_gate = true ->
  calc_dh h u tau_close tau_open u_gate = float_div (- h) tau_close.
Proof.
  intros H. unfold calc_dh. now rewrite (ltb_nan _ _ H).
Qed.

Lemma calc_dh_nan_decays_witness :
  calc_dh 0.5 nan 150 120 0.13 = float_div (- 0.5) 150.
Proof.
  exact (calc_dh_nan_decays 0.5 nan 150 120 0.13 (or_introl eq_refl)).
Defined.

(** X2. Rest is a fixed point for every parameter set, not only the default
    one: at [u = 0.0] (or [-0.0]) with finite [h] and time constants that
    are neither zero nor NaN, both currents are returned and compare equal
    to [0.0], and so does their sum [calc_rhs]; with [h = 1.0] and a
    positive threshold the gate derivative compares equal to [0.0] too. *)
Theorem rest_is_fixed_point (libm_pow2 : float -> outcome float)
    (u h tau_in tau_out tau_close tau_open u_gate : float) :
  (u =? 0) = true -> is_finite h = true ->
  (tau_in =? 0) = false -> is_nan tau_in = false ->
  (tau_out =? 0) = false -> is_nan tau_out = false ->
  (exists J_in J_out,
     calc_J_in libm_pow2 u h tau_in = Return J_in /\
     calc_J_out u tau_out = Return J_out /\
     (J_in =? 0) = true /\ (J_out =? 0) = true /\
     (calc_rhs J_in J_out =? 0) = true) /\
  ((0 <? u_gate) = true -> (tau_open =? 0) = false -> is_nan tau_open = false ->
   float_eq (calc_dh 1 u tau_close tau_open u_gate) (Return 0) = Return true).
Proof.
  intros Hu Hh Zi Ni Zo No.
  assert (Su : same_float u 0) by now right.
  split.
  - unfold calc_J_in, calc_J_out, float_div.
    rewrite (float_pow2_zero _ _ Hu), Zi, Zo. simpl.
    rewrite (same_float_one_sub _ _ Su).
    assert (Ji : (h * (0 * (1 - 0)) / tau_in =? 0) = true)
      by (apply div_zero; trivial; now apply mul_zero_r).
    assert (Jo : (- u / tau_out =? 0) = true)
      by (apply div_zero; trivial; now apply opp_zero).
    do 2 eexists. repeat split; trivial.
    unfold calc_rhs. now apply add_zero_zero.
  - intros Hg Zp Np. unfold calc_dh, float_div.
    rewrite (same_float_ltb u 0 u_gate u_gate Su (same_float_refl _)), Hg, Zp.
    simpl. f_equal. now apply div_zero.
Qed.

Lemma rest_is_fixed_point_witness :
  exists J_in J_out,
    calc_J_in pow2_rn (- 0) 0.7 2 = Return J_in /\
    calc_J_out (- 0) 3 = Return J_out /\
    (J_in =? 0) = true /\ (J_out =? 0) = true /\
    (calc_rhs J_in J_out =? 0) = true.
Proof.
  exact (proj1 (rest_is_fixed_point pow2_rn (- 0) 0.7 2 3 1 1 1
                  eq_refl eq_refl eq_refl eq_refl eq_refl eq_refl)).
Defined.

(** X3. The outward current restores: for finite [u] and [tau_out > 0],
    [calc_J_out] returns a value [<= 0] when [u >= 0] and a value [>= 0]
    when [u <= 0]. *)
Theorem calc_J_out_restoring (u tau_out : float) :
  is_finite u = true -> (0 <? tau_out) = true ->
  exists J, calc_J_out u tau_out = Return J /\
            ((0 <=? u) = true -> (J <=? 0) = true) /\
            ((u <=? 0) = true -> (0 <=? J) = true).
Proof.
  intros Hu Hp. destruct (ltb_zero_divisor _ Hp) as (P & Z & _).
  unfold calc_J_out, float_div. rewrite Z. eexists. split; [reflexivity|].
  rewrite !(FloatAxioms.leb_spec _ (- u / tau_out)),
    !(FloatAxioms.leb_spec (- u / tau_out)), Prim2SF_zero,
    FloatAxioms.div_spec, FloatAxioms.opp_spec.
  split; intros H.
  - apply weak_signed_nonpos, SFdiv_positive_weak; trivial.
    apply (SFopp_weak_finite false). now apply nonneg_finite_shape.
  - apply weak_signed_nonneg, SFdiv_positive_weak; trivial.
    apply (SFopp_weak_finite true). now apply nonpos_finite_shape.
Qed.

Lemma calc_J_out_restoring_witness :
  exists J, calc_J_out 0.5 6 = Return J /\
            ((0 <=? 0.5) = true -> (J <=? 0) = true) /\
            ((0.5 <=? 0) = true -> (0 <=? J) = true).
Proof. exact (calc_J_out_restoring 0.5 6 eq_refl eq_refl). Defined.

(** X4. The outward current is odd in [u]: [calc_J_out(-u, tau_out)]
    raises the exception [calc_J_out(u, tau_out)] raises; when that call
    returns a number it returns exactly the negated number, and when that
    call returns a NaN it returns a NaN. *)
Theorem calc_J_out_odd (u tau_out : float) :
  negated_outcome (calc_J_out u tau_out) (calc_J_out (- u) tau_out).
Proof.
  unfold calc_J_out, float_div.
  destruct (tau_out =? 0); simpl; [reflexivity|].
  rewrite (div_opp_l (- u)). apply negation_of_opp.
Qed.

(** X5. The inward current depolarizes on the unit interval: for
    [0 <= u <= 1], finite [h >= 0] and finite [tau_in > 0], on a platform
    whose [u ** 2] returns a value of the unit interval, [calc_J_in]
    returns a value [>= 0] (and [C] does not overflow). *)
Theorem calc_J_in_nonneg (libm_pow2 : float -> outcome float)
    (u u2 h tau_in : float) :
  float_pow2 libm_pow2 u = Return u2 ->
  (0 <=? u2) = true -> (u2 <=? 1) = true ->
  (0 <=? u) = true -> (u <=? 1) = true ->
  is_finite h = true -> (0 <=? h) = true ->
  is_finite tau_in = true -> (0 <? tau_in) = true ->
  exists J, calc_J_in libm_pow2 u h tau_in = Return J /\ (0 <=? J) = true.
Proof.
  intros Hp A0 A1 U0 U1 Hf Hh Tf Tp.
  destruct (unit_interval_square_bound _ A0 A1) as [W2 M2].
  destruct (J_in_quotient_nonneg u u2 h tau_in W2 M2 U0 U1 Hf Hh Tf Tp)
    as (_ & Z & N).
  unfold calc_J_in, float_div. rewrite Hp. simpl. rewrite Z.
  eexists. split; [reflexivity|exact N].
Qed.

(** The scenario of the specification: [u = 0.5], [h = 1.0],
    [tau_in = 0.3]. *)
Lemma calc_J_in_nonneg_witness :
  exists J, calc_J_in pow2_rn 0.5 1 0.3 = Return J /\ (0 <=? J) = true.
Proof.
  exact (calc_J_in_nonneg pow2_rn 0.5 0.25 1 0.3 eq_refl eq_refl eq_refl
           eq_refl eq_refl eq_refl eq_refl eq_refl eq_refl).
Defined.

(** X6. The equations do not tell [0.0] from [-0.0]: on arguments that are
    pairwise equal under [==], each of them raises the same exception or
    returns floats that are equal under [==] or both NaN, on every
    platform.  ([calc_rhs(inf, -inf)] is a NaN: two results need not
    themselves compare equal.) *)
Theorem equations_respect_eq (libm_pow2 : float -> outcome float) :
  (forall J_in J_in' J_out J_out',
     (J_in =? J_in') = true -> (J_out =? J_out') = true ->
     eq_or_nan (calc_rhs J_in J_out) (calc_rhs J_in' J_out')) /\
  (forall h h' u u' tau_close tau_close' tau_open tau_open' u_gate u_gate',
     (h =? h') = true -> (u =? u') = true ->
     (tau_close =? tau_close') = true -> (tau_open =? tau_open') = true ->
     (u_gate =? u_gate') = true ->
     agree (calc_dh h u tau_close tau_open u_gate)
           (calc_dh h' u' tau_close' tau_open' u_gate')) /\
  (forall u u' h h' tau_in tau_in',
     (u =? u') = true -> (h =? h') = true -> (tau_in =? tau_in') = true ->
     agree (calc_J_in libm_pow2 u h tau_in)
           (calc_J_in libm_pow2 u' h' tau_in')) /\
  (forall u u' tau_out tau_out',
     (u =? u') = true -> (tau_out =? tau_out') = true ->
     agree (calc_J_out u tau_out) (calc_J_out u' tau_out')).
Proof.
  repeat split.
  - intros. apply same_float_eq_or_nan, same_float_add; now right.
  - intros h h' u u' tc tc' to to' ug ug' Hh Hu Hc Ho Hg.
    apply same_outcome_agree. unfold calc_dh.
    rewrite <- (same_float_ltb u u' ug ug' (or_intror Hu) (or_intror Hg)).
    destruct (u <? ug).
    + rewrite (same_float_one_sub _ _ (or_intror Hh)).
      apply same_float_div; [apply same_float_refl|now right].
    + apply same_float_div; [apply same_float_opp|]; now right.
  - intros u u' h h' t t' Hu Hh Ht.
    apply same_outcome_agree. unfold calc_J_in.
    rewrite <- (same_float_pow2 libm_pow2 _ _ (or_intror Hu)).
    destruct (float_pow2 libm_pow2 u) as [u2|e]; simpl; [|reflexivity].
    rewrite <- (same_float_one_sub _ _ (or_intror Hu)).
    apply same_float_div; [|now right].
    apply same_float_mul; [now right|apply same_float_refl].
  - intros u u' t t' Hu Ht.
    apply same_outcome_agree. unfold calc_J_out.
    apply same_float_div; [apply same_float_opp|]; now right.
Qed.

(** [calc_J_out(0.0, 6.0)] is [-0.0] and [calc_J_out(-0.0, 6.0)] is [0.0]. *)
Lemma equations_respect_eq_witness :
  agree (calc_J_out 0 6) (calc_J_out (- 0) 6).
Proof.
  exact (proj2 (proj2 (proj2 (equations_respect_eq pow2_rn)))
           0 (- 0) 6 6 eq_refl eq_refl).
Defined.

(** X7. Equal and opposite currents cancel exactly: for a finite [J],
    [calc_rhs(J, -J)] is [+0.0]. *)
Theorem calc_rhs_cancels (J : float) :
  is_finite J = true -> calc_rhs J (- J) = 0.
Proof. intros H. unfold calc_rhs. now apply add_opp. Qed.

Lemma calc_rhs_cancels_witness : calc_rhs 0.3 (- 0.3) = 0%float.
Proof. exact (calc_rhs_cancels 0.3 eq_refl). Defined.

(** X8. The inward current is odd in the gate variable, on every
    platform: [calc_J_in(u, -h, tau_in)] raises the exception
    [calc_J_in(u, h, tau_in)] raises; when that call returns a number it
    returns exactly the negated number, and when that call returns a NaN
    it returns a NaN. *)
Theorem calc_J_in_odd_in_h (libm_pow2 : float -> outcome float)
    (u h tau_in : float) :
  negated_outcome (calc_J_in libm_pow2 u h tau_in)
                  (calc_J_in libm_pow2 u (- h) tau_in).
Proof.
  unfold calc_J_in, float_div.
  destruct (float_pow2 libm_pow2 u) as [u2|e]; simpl; [|reflexivity].
  destruct (tau_in =? 0); simpl; [reflexivity|].
  rewrite mul_opp_l, div_opp_l. apply negation_of_opp.
Qed.

(** X9. With the gate closed the potential relaxes: for [h = 0.0],
    [0 <= u <= 1], [tau_out > 0], finite [tau_in > 0] and a square in the
    unit interval, both currents are returned and their sum
    [calc_rhs(J_in, J_out)] is [<= 0]. *)
Theorem closed_gate_repolarizes (libm_pow2 : float -> outcome float)
    (u u2 tau_in tau_out : float) :
  float_pow2 libm_pow2 u = Return u2 ->
  (0 <=? u2) = true -> (u2 <=? 1) = true ->
  (0 <=? u) = true -> (u <=? 1) = true ->
  is_finite tau_in = true -> (0 <? tau_in) = true ->
  (0 <? tau_out) = true ->
  exists J_in J_out,
    calc_J_in libm_pow2 u 0 tau_in = Return J_in /\
    calc_J_out u tau_out = Return J_out /\
    (calc_rhs J_in J_out <=? 0) = true.
Proof.
  intros Hp A0 A1 U0 U1 Tf Tp To.
  destruct (unit_interval_square_bound _ A0 A1) as [W2 M2].
  destruct (J_in_quotient_nonneg u u2 0 tau_in W2 M2 U0 U1
              eq_refl eq_refl Tf Tp) as (FC & Z & _).
  destruct (ltb_zero_divisor _ To) as (Po & Zo & _).
  destruct (ltb_zero_divisor _ Tp) as (_ & _ & Nn).
  unfold calc_J_in, calc_J_out, float_div. rewrite Hp. simpl. rewrite Z, Zo.
  do 2 eexists. split; [reflexivity|]. split; [reflexivity|].
  assert (Ji : (0 * (u2 * (1 - u)) / tau_in =? 0) = true)
    by (apply div_zero; trivial; now apply mul_zero_l).
  apply eqb_zero_iff in Ji.
  unfold calc_rhs.
  rewrite FloatAxioms.leb_spec, Prim2SF_zero, FloatAxioms.add_spec.
  apply weak_signed_nonpos, SFadd_zero_weak; trivial.
  rewrite FloatAxioms.div_spec, FloatAxioms.opp_spec.
  apply SFdiv_positive_weak; trivial.
  apply (SFopp_weak_finite false).
  rewrite FloatAxioms.leb_spec, Prim2SF_zero in U0.
  rewrite FloatAxioms.leb_spec, Prim2SF_one in U1.
  now apply unit_interval_shape.
Qed.

Lemma closed_gate_repolarizes_witness :
  exists J_in J_out,
    calc_J_in pow2_rn 0.5 0 0.3 = Return J_in /\
    calc_J_out 0.5 6 = Return J_out /\
    (calc_rhs J_in J_out <=? 0) = true.
Proof.
  exact (closed_gate_repolarizes pow2_rn 0.5 0.25 0.3 6 eq_refl eq_refl
           eq_refl eq_refl eq_refl eq_refl eq_refl eq_refl).
Defined.

(** X10. The state and the parameters of one simulation are separate
    objects: after [v = get_variables()], [p = get_parameters()] and the
    update [v["u"] = x], the state reads [u = x], [h = 1.0] and the
    parameters are still the defaults. *)
Theorem state_update_keeps_parameters (s : heap) (x : float) :
  let v := get_variables s in
  let p := get_parameters v.2 in
  let s' := setitem v.1 "u" x p.2 in
  v.1 <> p.1 /\
  (exists d : dict, s' !! v.1 = Some d /\
     d !! "u" = Some x /\ d !! "h" = Some 1 /\ dom d = {[ "u"; "h" ]}) /\
  s' !! p.1 = Some default_parameters /\
  (forall (l : positive) (d : dict), s !! l = Some d -> s' !! l = Some d).
Proof.
  cbv zeta. unfold get_variables, get_parameters, setitem.
  destruct (alloc_twice default_variables default_parameters s)
    as (N & K1 & K2 & M).
  destruct (M (<["u" := x]>)) as (M1 & M2 & _).
  split; [exact N|]. split; [|split; [exact M2|]].
  - eexists. split; [exact M1|]. split; [apply lookup_insert_eq|].
    split; [reflexivity|].
    unfold default_variables.
    rewrite !dom_insert_L, dom_singleton_L. set_solver.
  - intros l d H. unfold mutate.
    assert (L : l <> (alloc default_variables s).1).
    { intros ->. rewrite alloc_fresh in H. discriminate. }
    rewrite lookup_alter_ne by congruence.
    now apply alloc_frame, alloc_frame.
Qed.

(** X11. Outside the unit interval the gate derivative points back to it.
    For a finite [h >= 1] the recovery branch ([u < u_gate], finite
    [tau_open > 0]) returns a value [<= 0]; for a finite [h <= 0] the decay
    branch ([u >= u_gate], [tau_close > 0]) returns a value [>= 0]. *)
Theorem calc_dh_pulls_back (h u tau_close tau_open u_gate : float) :
  is_finite h = true ->
  ((1 <=? h) = true -> (u <? u_gate) = true ->
   is_finite tau_open = true -> (0 <? tau_open) = true ->
   exists d, calc_dh h u tau_close tau_open u_gate = Return d /\
             (d <=? 0) = true) /\
  ((h <=? 0) = true -> (u_gate <=? u) = true -> (0 <? tau_close) = true ->
   exists d, calc_dh h u tau_close tau_open u_gate = Return d /\
             (0 <=? d) = true).
Proof.
  intros Hf. unfold calc_dh, float_div. split.
  - intros H1 -> Tf Tp.
    destruct (positive_finite_divisor _ Tf Tp) as (TF & TP & TZ).
    rewrite TZ. eexists. split; [reflexivity|].
    rewrite FloatAxioms.leb_spec, Prim2SF_zero, FloatAxioms.div_spec,
      FloatAxioms.sub_spec, Prim2SF_one.
    apply weak_signed_nonpos, SFdiv_weak_pos; trivial.
    rewrite FloatAxioms.leb_spec, Prim2SF_one in H1.
    apply SFsub_one_above; trivial; [apply Prim2SF_valid|].
    now apply is_finite_iff.
  - intros H0 Hge Tp.
    destruct (ltb_zero_divisor _ Tp) as (P & Z & _).
    rewrite (leb_not_ltb _ _ Hge), Z. eexists. split; [reflexivity|].
    rewrite FloatAxioms.leb_spec, Prim2SF_zero, FloatAxioms.div_spec,
      FloatAxioms.opp_spec.
    apply weak_signed_nonneg, SFdiv_positive_weak; trivial.
    apply (SFopp_weak_finite true). now apply nonpos_finite_shape.
Qed.

Lemma calc_dh_pulls_back_witness :
  exists d, calc_dh 1.5 0 150 120 0.13 = Return d /\ (d <=? 0) = true.
Proof.
  exact (proj1 (calc_dh_pulls_back 1.5 0 150 120 0.13 eq_refl)
           eq_refl eq_refl eq_refl eq_refl).
Defined.

End Further.
